(** * The pipeline notebook: records, processors and the pipeline runner

    A shallow embedding of [pipeline.ipynb].  Python objects live in a heap
    of [TextObject]s addressed by location, because the notebook passes its
    records by reference and mutates them in place.  The two libraries the
    processors call ([langdetect] and [textblob]) are parameters of the
    development; a call to either may return or raise.  A ghost log records
    every dispatched [process] call and every library call, so that call
    order and "no call was made" can be stated. *)

From Stdlib Require Import QArith.
From stdpp Require Import base option list strings.

Local Open Scope string_scope.
Local Open Scope list_scope.

(** ** Data objects *)

(** [@dataclass class TextObject]: [text: str], [language: str = None],
    [sentiment: str = None].  The sentiment slot is annotated [str] but the
    notebook stores the polarity number in it; the score is a rational here,
    since the code only stores it and never computes with it. *)
Record TextObject : Type := mkTextObject {
  text : string;
  language : option string;
  sentiment : option Q;
}.

(** The generated [__init__(self, text, language=None, sentiment=None)]. *)
Definition TextObject_init (t : string) (lang : option (option string))
    (sent : option (option Q)) : TextObject :=
  {| text := t; language := default None lang; sentiment := default None sent |}.

(** [TextObject('...')], the only way the notebook constructs a record. *)
Definition TextObject_of_text (t : string) : TextObject :=
  TextObject_init t None None.

Definition set_language (r : TextObject) (v : string) : TextObject :=
  {| text := text r; language := Some v; sentiment := sentiment r |}.

Definition set_sentiment (r : TextObject) (v : Q) : TextObject :=
  {| text := text r; language := language r; sentiment := Some v |}.

(** A candidate returned by [langdetect.detect_langs]: [.lang] and [.prob]. *)
Record Language : Type := mkLanguage { lang : string; prob : Q }.

(** ** Processor classes *)

(** The concrete subclasses of the abstract [Processor]. *)
Inductive Processor : Type := LanguageDetector | SentimentDetector.

#[global] Instance Processor_eq_dec : EqDecision Processor.
Proof. solve_decision. Defined.

(** [@dataclass class Pipeline]: [processors: list]. *)
Record Pipeline : Type := mkPipeline { processors : list Processor }.

(** ** Exceptions, store and ghost log *)

(** Object references. *)
Abbreviation loc := nat.

Inductive exn : Type :=
| NameError (name : string)       (* a free variable that is not bound *)
| IndexError                      (* [l[0]] on an empty list *)
| LibraryError (msg : string)     (* raised inside langdetect / textblob *)
| InvalidReference (l : loc).     (* model only: Python has no dangling references *)

Inductive result (A : Type) : Type :=
| Ok (a : A)
| Raise (e : exn).
Arguments Ok {A} a.
Arguments Raise {A} e.

Inductive Event : Type :=
| EvProcess (p : Processor) (l : loc)   (* [processor.process(text)] dispatched *)
| EvDetectLangs (t : string)            (* [langdetect.detect_langs(t)] called *)
| EvPolarity (t : string).              (* [textblob.TextBlob(t).sentiment.polarity] *)

Record State : Type := mkState {
  heap : list TextObject;
  log : list Event;
}.

(** The module namespace of the notebook, as far as [run] reads it: the
    global name [processors] is unbound until the set-up cell binds it. *)
Record Globals : Type := mkGlobals { g_processors : option (list Processor) }.

(** State-and-exception monad: a raised exception keeps the mutations made
    so far, as in Python. *)
Definition M (A : Type) : Type := State → result A * State.

#[global] Instance M_ret : MRet M := λ A a s, (Ok a, s).
#[global] Instance M_bind : MBind M := λ A B f m s,
  match m s with
  | (Ok a, s') => f a s'
  | (Raise e, s') => (Raise e, s')
  end.

Definition raise {A} (e : exn) : M A := λ s, (Raise e, s).
Definition emit (ev : Event) : M unit :=
  λ s, (Ok tt, {| heap := heap s; log := log s ++ [ev] |}).
Definition read (l : loc) : M TextObject :=
  λ s, match heap s !! l with
       | Some r => (Ok r, s)
       | None => (Raise (InvalidReference l), s)
       end.
Definition write (l : loc) (r : TextObject) : M unit :=
  λ s, (Ok tt, {| heap := <[l := r]> (heap s); log := log s |}).
(** [obj.field = v]: an attribute assignment on the object at [l]. *)
Definition setattr (l : loc) (upd : TextObject → TextObject) : M unit :=
  r ← read l; write l (upd r).
Definition lift_result {A} (x : result A) : M A :=
  λ s, match x with Ok a => (Ok a, s) | Raise e => (Raise e, s) end.

(** [for x in xs: body(x)] *)
Fixpoint for_each {A} (xs : list A) (body : A → M unit) : M unit :=
  match xs with
  | [] => mret tt
  | x :: xs' => body x ;; for_each xs' body
  end.

(** ** [sorted(iterable, key=..., reverse=...)]

    Python's sort is stable, also with [reverse=True]: elements with equal
    keys keep their original relative order. *)
Definition Qltb (a b : Q) : bool :=
  match (a ?= b)%Q with Lt => true | _ => false end.

(** [y] has to come strictly before [x] in the requested direction. *)
Definition strictly_before {A} (key : A → Q) (reverse : bool) (y x : A) : bool :=
  if reverse then Qltb (key x) (key y) else Qltb (key y) (key x).

Fixpoint insert_sorted {A} (key : A → Q) (reverse : bool) (x : A) (l : list A)
    : list A :=
  match l with
  | [] => [x]
  | y :: l' =>
      if strictly_before key reverse y x
      then y :: insert_sorted key reverse x l'
      else x :: y :: l'
  end.

Definition sorted {A} (key : A → Q) (reverse : bool) (l : list A) : list A :=
  foldr (insert_sorted key reverse) [] l.

(** [l[0]] *)
Definition item0 {A} (l : list A) : M A :=
  match l with
  | [] => raise IndexError
  | x :: _ => mret x
  end.

Section Collaborators.

(** The external libraries.  Both are deterministic functions of the text;
    either may raise.  ([langdetect] answers the same text the same way only
    once its [DetectorFactory.seed] is set; the statements below that
    compare two calls on one text are about collaborators that do.) *)
Variable detect_langs : string → result (list Language).
Variable polarity : string → result Q.

Definition call_detect_langs (t : string) : M (list Language) :=
  emit (EvDetectLangs t) ;; lift_result (detect_langs t).

Definition call_polarity (t : string) : M Q :=
  emit (EvPolarity t) ;; lift_result (polarity t).

(** [LanguageDetector.process(self, text_object)] *)
Definition LanguageDetector_process (text_object : loc) : M unit :=
  r ← read text_object;
  detected_languages ← call_detect_langs (text r);
  if (0 <? length detected_languages)%nat then
    best ← item0 (sorted prob true detected_languages);
    setattr text_object (λ o, set_language o (lang best))
  else mret tt.

(** [SentimentDetector.process(self, text_object)] *)
Definition SentimentDetector_process (text_object : loc) : M unit :=
  r ← read text_object;
  if decide (language r = Some "en") then
    score ← call_polarity (text r);
    setattr text_object (λ o, set_sentiment o score)
  else mret tt.

(** [processor.process(text)]: dynamic dispatch on the processor's class. *)
Definition process (p : Processor) (text_object : loc) : M unit :=
  match p with
  | LanguageDetector => LanguageDetector_process text_object
  | SentimentDetector => SentimentDetector_process text_object
  end.

(** The name [processors] in the body of [run] is a free variable: it is
    looked up in the module globals each time the inner loop starts. *)
Definition load_processors (g : Globals) : M (list Processor) :=
  match g_processors g with
  | Some ps => mret ps
  | None => raise (NameError "processors")
  end.

(** [Pipeline.run(self, texts)]:
<<
    for text in texts:
        for processor in processors:
            processor.process(text)
>> *)
Definition run (self : Pipeline) (g : Globals) (texts : list loc) : M unit :=
  for_each texts (λ text,
    ps ← load_processors g;
    for_each ps (λ processor,
      emit (EvProcess processor text) ;; process processor text)).

End Collaborators.

(** ** Auxiliary notions used by the statements *)

(** The effect of one [process] call on the record it is given, as a pure
    function of that record; [process_unfold] below relates it to the code. *)
Definition step (detect_langs : string → result (list Language))
    (polarity : string → result Q) (p : Processor) (r : TextObject)
    : result TextObject :=
  match p with
  | LanguageDetector =>
      match detect_langs (text r) with
      | Raise e => Raise e
      | Ok cands =>
          match head (sorted prob true cands) with
          | Some best => Ok (set_language r (lang best))
          | None => Ok r
          end
      end
  | SentimentDetector =>
      if decide (language r = Some "en") then
        match polarity (text r) with
        | Raise e => Raise e
        | Ok score => Ok (set_sentiment r score)
        end
      else Ok r
  end.

(** The library calls one [process] call makes on a record. *)
Definition calls (p : Processor) (r : TextObject) : list Event :=
  match p with
  | LanguageDetector => [EvDetectLangs (text r)]
  | SentimentDetector =>
      if decide (language r = Some "en") then [EvPolarity (text r)] else []
  end.

(** All processors of [ps], in order, on one record. *)
Fixpoint steps (detect_langs : string → result (list Language))
    (polarity : string → result Q) (ps : list Processor) (r : TextObject)
    : result TextObject :=
  match ps with
  | [] => Ok r
  | p :: ps' =>
      match step detect_langs polarity p r with
      | Ok r' => steps detect_langs polarity ps' r'
      | Raise e => Raise e
      end
  end.

(** The [process] dispatches recorded in a log, in order. *)
Definition dispatches (evs : list Event) : list (Processor * loc) :=
  omap (λ ev, match ev with EvProcess p l => Some (p, l) | _ => None end) evs.

(** Record-major order: every processor on the first record, then every
    processor on the second, and so on. *)
Definition schedule (ps : list Processor) (texts : list loc)
    : list (Processor * loc) :=
  flat_map (λ l, map (λ p, (p, l)) ps) texts.

(** An explicit sequence of [process] calls. *)
Definition invoke_all (detect_langs : string → result (list Language))
    (polarity : string → result Q) (cs : list (Processor * loc)) : M unit :=
  for_each cs (λ c, process detect_langs polarity c.1 c.2).

(** ** The list object [texts]

    [Pipeline.run] receives a reference to a Python list and iterates over
    it in place.  A list iterator keeps an index into the list object and
    reads the object again at every step, until the index is past its end,
    so the loop would see any change made to the list while it runs.  A
    world adds the list objects, by address, to the store of records. *)
Record World : Type := mkWorld {
  store : State;
  sequences : list (list loc);
}.

Definition W (A : Type) : Type := World → result A * World.

(** An operation on records, run in a world. *)
Definition lift_store {A} (m : M A) : W A :=
  λ w, ((m (store w)).1,
        {| store := (m (store w)).2; sequences := sequences w |}).

(** [for x in <the list object at ref>: body(x)], resumed at index [i].
    [None] means the fuel ran out before the iterator was exhausted. *)
Fixpoint for_in (fuel : nat) (ref : loc) (i : nat) (body : loc → W unit)
    (w : World) : option (result unit * World) :=
  match fuel with
  | O => None
  | S fuel' =>
      match sequences w !! ref with
      | None => Some (Raise (InvalidReference ref), w)
      | Some xs =>
          match xs !! i with
          | None => Some (Ok tt, w)
          | Some x =>
              match body x w with
              | (Ok _, w') => for_in fuel' ref (S i) body w'
              | (Raise e, w') => Some (Raise e, w')
              end
          end
      end
  end.

(** The body of the outer loop of [run]. *)
Definition run_body (detect_langs : string → result (list Language))
    (polarity : string → result Q) (g : Globals) (text : loc) : M unit :=
  ps ← load_processors g;
  for_each ps (λ processor,
    emit (EvProcess processor text) ;; process detect_langs polarity processor text).

(** [Pipeline.run(self, texts)] with [texts] the address of a list object;
    [run] above is the same method given the contents of that list. *)
Definition Pipeline_run (detect_langs : string → result (list Language))
    (polarity : string → result Q) (self : Pipeline) (g : Globals)
    (fuel : nat) (texts : loc) : World → option (result unit * World) :=
  for_in fuel texts 0 (λ text, lift_store (run_body detect_langs polarity g text)).

Definition is_language_detector (p : Processor) : bool :=
  match p with LanguageDetector => true | SentimentDetector => false end.

(** Processor lists in which every [SentimentDetector] comes before every
    [LanguageDetector], with at least one of each: [SD; ...; SD; LD; ...; LD]. *)
Fixpoint sentiments_first (ps : list Processor) : bool :=
  match ps with
  | SentimentDetector :: ps' =>
      match ps' with
      | [] => false
      | _ :: _ => forallb is_language_detector ps' || sentiments_first ps'
      end
  | _ => false
  end.

(** Sample collaborators and stores for evaluating the model: the
    collaborators answer as the notebook's recorded output does on its two
    texts, and the detector raises on a text without features, as
    [langdetect] does. *)
Definition hello_text : string := "Hello World. I am happy. Today is a good day.".
Definition german_text : string := "Dieser Satz ist auf Deutsch.".

Definition sample_detect_langs (t : string) : result (list Language) :=
  if decide (t = "") then Raise (LibraryError "No features in text.")
  else if decide (t = hello_text) then Ok [mkLanguage "en" (999996 # 1000000)]
  else if decide (t = german_text) then Ok [mkLanguage "de" (999995 # 1000000)]
  else if decide (t = "Hallo")
  then Ok [mkLanguage "nl" (2 # 7); mkLanguage "de" (4 # 7); mkLanguage "fi" (1 # 7)]
  else Ok [].

Definition sample_polarity (t : string) : result Q :=
  if decide (t = hello_text) then Ok (75 # 100) else Ok 0%Q.

(** The list [texts] of the notebook, and the store that holds it. *)
Definition notebook_texts : list TextObject :=
  [ TextObject_of_text hello_text; TextObject_of_text german_text ].

Definition notebook_state : State := mkState notebook_texts [].

(** The effect of the inner loop of [run] on the store alone: on an empty
    processor list nothing is read; otherwise the record is read, taken
    through [steps] and written back.  [inner_heap_spec] relates it to the
    code. *)
Definition inner_heap (detect_langs : string → result (list Language))
    (polarity : string → result Q) (ps : list Processor) (l : loc)
    (h : list TextObject) : result (list TextObject) :=
  match ps with
  | [] => Ok h
  | _ :: _ =>
      match h !! l with
      | None => Raise (InvalidReference l)
      | Some r =>
          match steps detect_langs polarity ps r with
          | Ok r1 => Ok (<[l := r1]> h)
          | Raise e => Raise e
          end
      end
  end.

(** The effect of [run], with [processors] bound to [ps], on the store. *)
Fixpoint run_heap (detect_langs : string → result (list Language))
    (polarity : string → result Q) (ps : list Processor) (texts : list loc)
    (h : list TextObject) : result (list TextObject) :=
  match texts with
  | [] => Ok h
  | l :: texts' =>
      match inner_heap detect_langs polarity ps l h with
      | Ok h1 => run_heap detect_langs polarity ps texts' h1
      | Raise e => Raise e
      end
  end.


(** Counting the library calls recorded in a log. *)
Definition is_detect_call (ev : Event) : bool :=
  match ev with EvDetectLangs _ => true | _ => false end.

Definition is_polarity_call (ev : Event) : bool :=
  match ev with EvPolarity _ => true | _ => false end.

Definition count_events (f : Event → bool) (evs : list Event) : nat :=
  length (List.filter f evs).

Definition count_processors (f : Processor → bool) (ps : list Processor) : nat :=
  length (List.filter f ps).

(** * Properties *)

Section Facts.

Variable detect_langs : string → result (list Language).
Variable polarity : string → result Q.

Local Abbreviation process := (process detect_langs polarity).
Local Abbreviation step := (step detect_langs polarity).
Local Abbreviation steps := (steps detect_langs polarity).
Local Abbreviation run := (run detect_langs polarity).
Local Abbreviation invoke_all := (invoke_all detect_langs polarity).

(** The body of the outer loop of [run], once [processors] is resolved. *)
Local Abbreviation inner ps l :=
  (for_each ps (λ processor,
     emit (EvProcess processor l) ;; process processor l)).

(** ** The stable sort *)

Lemma Qltb_false_le a b : Qltb a b = false → (b <= a)%Q.
Proof.
  unfold Qltb. destruct (a ?= b)%Q eqn:E; try discriminate; intros _.
  - apply Qeq_alt in E. rewrite E. apply Qle_refl.
  - apply Qgt_alt in E. apply Qlt_le_weak. exact E.
Qed.

Lemma Qltb_true_lt a b : Qltb a b = true → (a < b)%Q.
Proof.
  unfold Qltb. destruct (a ?= b)%Q eqn:E; try discriminate; intros _.
  by apply Qlt_alt.
Qed.

Lemma head_insert_sorted {A} (key : A → Q) x l :
  head (insert_sorted key true x l) =
    match head l with
    | Some y => if Qltb (key x) (key y) then Some y else Some x
    | None => Some x
    end.
Proof. destruct l as [|y l]; simpl; [done|]. by destruct (Qltb _ _). Qed.

Lemma sorted_nil_inv {A} (key : A → Q) rev l : sorted key rev l = [] → l = [].
Proof.
  destruct l as [|x l]; [done|]. simpl.
  destruct (sorted key rev l) as [|y m]; simpl; [done|].
  by destruct (strictly_before _ _ _ _).
Qed.

(** The first element of the descending sort is a member with maximal key. *)
Lemma head_sorted_max {A} (key : A → Q) l best :
  head (sorted key true l) = Some best →
  best ∈ l ∧ ∀ c, c ∈ l → (key c <= key best)%Q.
Proof.
  revert best. induction l as [|x l IH]; intros best; simpl; [done|].
  rewrite head_insert_sorted.
  destruct (head (sorted key true l)) as [y|] eqn:Hy.
  - destruct (IH y eq_refl) as [Hin Hmax].
    destruct (Qltb (key x) (key y)) eqn:Hlt; intros [= <-].
    + split; [by right|]. intros c [->|Hc]%elem_of_cons; [|by apply Hmax].
      apply Qlt_le_weak. by apply Qltb_true_lt.
    + split; [by left|]. intros c [->|Hc]%elem_of_cons; [apply Qle_refl|].
      eapply Qle_trans; [by apply Hmax|]. by apply Qltb_false_le.
  - intros [= <-]. apply head_None in Hy. apply sorted_nil_inv in Hy as ->.
    split; [by left|]. intros c ->%list_elem_of_singleton. apply Qle_refl.
Qed.

(** ** The monad *)

Lemma bind_ok {A B} (m : M A) (f : A → M B) s a s' :
  m s = (Ok a, s') → (m ≫= f) s = f a s'.
Proof. intros H. unfold mbind, M_bind. by rewrite H. Qed.

Lemma bind_raise {A B} (m : M A) (f : A → M B) s e s' :
  m s = (Raise e, s') → (m ≫= f) s = (Raise e, s').
Proof. intros H. unfold mbind, M_bind. by rewrite H. Qed.

(** A state property kept by every iteration is kept by the loop, whether
    the loop finishes or is cut short by an exception. *)
Lemma for_each_state_inv {A} (I : State → Prop) (xs : list A) body s :
  (∀ x s, I s → I (body x s).2) → I s → I (for_each xs body s).2.
Proof.
  intros Hbody. revert s. induction xs as [|x xs IH]; intros s Hs; [done|].
  simpl. unfold mbind, M_bind. specialize (Hbody x s Hs).
  destruct (body x s) as [[[]|e] s1]; simpl in *; [by apply IH|done].
Qed.

(** ** One [process] call *)

Lemma state_eta s : {| heap := heap s; log := log s |} = s.
Proof. by destruct s. Qed.

(** On a dangling reference the first attribute read fails. *)
Lemma process_dangling p l s :
  heap s !! l = None → process p l s = (Raise (InvalidReference l), s).
Proof.
  intros Hl. destruct p; simpl; cbv [LanguageDetector_process
    SentimentDetector_process mbind M_bind read]; by rewrite Hl.
Qed.

(** What the code of either processor does to the store, through [step]. *)
Lemma process_unfold p l s r :
  heap s !! l = Some r →
  process p l s =
    match step p r with
    | Ok r' => (Ok tt, {| heap := <[l := r']> (heap s); log := log s ++ calls p r |})
    | Raise e => (Raise e, {| heap := heap s; log := log s ++ calls p r |})
    end.
Proof.
  intros Hl. destruct p; simpl.
  - cbv [LanguageDetector_process mbind M_bind read call_detect_langs emit
      lift_result]. rewrite Hl. simpl.
    destruct (detect_langs (text r)) as [cands|e]; [|done].
    destruct cands as [|c cands]; simpl.
    { by rewrite list_insert_id. }
    destruct (insert_sorted prob true c (sorted prob true cands)) as [|b m] eqn:Hs.
    { by apply (sorted_nil_inv prob true (c :: cands)) in Hs. }
    cbv [item0 mret M_ret setattr mbind M_bind read write]. simpl. by rewrite Hl.
  - cbv [SentimentDetector_process mbind M_bind read]. rewrite Hl.
    destruct (decide (language r = Some "en")) as [Hen|Hen].
    + cbv [call_polarity emit lift_result mbind M_bind]. simpl.
      destruct (polarity (text r)) as [q|e]; [|done].
      cbv [setattr mbind M_bind read write]. simpl. by rewrite Hl.
    + cbv [mret M_ret]. rewrite list_insert_id by done. by rewrite app_nil_r, state_eta.
Qed.

Lemma steps_cons p ps r :
  steps (p :: ps) r =
    match step p r with
    | Ok r' => steps ps r'
    | Raise e => Raise e
    end.
Proof. reflexivity. Qed.

Lemma step_text p r r' : step p r = Ok r' → text r' = text r.
Proof.
  destruct p; simpl.
  - destruct (detect_langs (text r)); [|done].
    destruct (head _); by intros [= <-].
  - destruct (decide _); [|by intros [= <-]].
    destruct (polarity (text r)); [|done]. by intros [= <-].
Qed.

Lemma step_language_set p r r' :
  step p r = Ok r' → is_Some (language r) → is_Some (language r').
Proof.
  destruct p; simpl.
  - destruct (detect_langs (text r)); [|done].
    destruct (head _); intros [= <-]; simpl; eauto.
  - destruct (decide _); [|by intros [= <-]].
    destruct (polarity (text r)); [|done]. by intros [= <-].
Qed.

Lemma step_sentiment_set p r r' :
  step p r = Ok r' → is_Some (sentiment r) → is_Some (sentiment r').
Proof.
  destruct p; simpl.
  - destruct (detect_langs (text r)); [|done].
    destruct (head _); by intros [= <-].
  - destruct (decide _); [|by intros [= <-]].
    destruct (polarity (text r)); [|done]. intros [= <-]; simpl; eauto.
Qed.

(** [process] touches no location but the one it is given, and never
    changes the number of records. *)
Lemma process_heap p l s :
  heap (process p l s).2 = heap s ∨
  ∃ r r', heap s !! l = Some r ∧ step p r = Ok r' ∧
          heap (process p l s).2 = <[l := r']> (heap s).
Proof.
  destruct (heap s !! l) as [r|] eqn:Hl.
  - rewrite (process_unfold _ _ _ _ Hl).
    destruct (step p r) as [r'|e] eqn:Hst; [right; eauto|by left].
  - rewrite process_dangling by done. by left.
Qed.

Lemma process_heap_length p l s :
  length (heap (process p l s).2) = length (heap s).
Proof.
  destruct (process_heap p l s) as [->|(r & r' & _ & _ & ->)]; [done|].
  apply length_insert.
Qed.

Lemma process_other p l s l' :
  l' ≠ l → heap (process p l s).2 !! l' = heap s !! l'.
Proof.
  intros Hne. destruct (process_heap p l s) as [->|(r & r' & _ & _ & ->)]; [done|].
  by apply list_lookup_insert_ne.
Qed.

(** Any property of single records that [step] preserves is preserved, at
    every location, by [process]. *)
Lemma process_preserves (P : TextObject → TextObject → Prop) p l s :
  (∀ r, P r r) →
  (∀ r r', step p r = Ok r' → P r r') →
  ∀ l' r0, heap s !! l' = Some r0 →
    ∃ r1, heap (process p l s).2 !! l' = Some r1 ∧ P r0 r1.
Proof.
  intros Hrefl Hstep l' r0 Hl'.
  destruct (process_heap p l s) as [->|(r & r' & Hl & Hst & ->)]; [eauto|].
  destruct (decide (l' = l)) as [Heq|Hne].
  - subst l'. assert (r0 = r) as -> by congruence.
    rewrite list_lookup_insert_eq by (by eapply lookup_lt_Some). eauto.
  - rewrite list_lookup_insert_ne by done. eauto.
Qed.

Lemma process_dispatches p l s :
  dispatches (log (process p l s).2) = dispatches (log s).
Proof.
  destruct (heap s !! l) as [r|] eqn:Hl.
  - rewrite (process_unfold _ _ _ _ Hl).
    assert (dispatches (log s ++ calls p r) = dispatches (log s)) as Hd.
    { unfold dispatches. rewrite omap_app.
      destruct p; simpl; [by rewrite app_nil_r|].
      destruct (decide _); simpl; by rewrite app_nil_r. }
    by destruct (step p r).
  - by rewrite process_dangling.
Qed.

(** ** The loops of [run] *)

Lemma run_unbound self texts s :
  run self (mkGlobals None) texts s =
    match texts with
    | [] => (Ok tt, s)
    | _ :: _ => (Raise (NameError "processors"), s)
    end.
Proof. by destruct texts. Qed.

(** [run] never looks at [self]. *)
Lemma run_self_irrelevant self self' g texts s :
  run self g texts s = run self' g texts s.
Proof. reflexivity. Qed.

Lemma run_state_inv (I : State → Prop) self g texts s :
  (∀ p l s, I s → I (process p l s).2) →
  (∀ ev s, I s → I (emit ev s).2) →
  I s → I (run self g texts s).2.
Proof.
  intros Hproc Hemit. apply for_each_state_inv. clear s. intros l s Hs.
  destruct g as [[ps|]]; [|done].
  change (I (inner ps l s).2). revert Hs. apply for_each_state_inv.
  clear s. intros p s Hs. unfold mbind, M_bind.
  specialize (Hemit (EvProcess p l) s Hs).
  destruct (emit (EvProcess p l) s) as [[[]|e] s1] eqn:He; simpl in *;
    [by apply Hproc|done].
Qed.

(** Record-wise properties that are reflexive, transitive and kept by
    [step] hold between the store before and after [run]. *)
Lemma run_preserves (P : TextObject → TextObject → Prop) self g texts s :
  (∀ r, P r r) →
  (∀ r1 r2 r3, P r1 r2 → P r2 r3 → P r1 r3) →
  (∀ p r r', step p r = Ok r' → P r r') →
  ∀ l' r0, heap s !! l' = Some r0 →
    ∃ r1, heap (run self g texts s).2 !! l' = Some r1 ∧ P r0 r1.
Proof.
  intros Hrefl Htrans Hstep.
  apply (run_state_inv (λ s', ∀ l' r0, heap s !! l' = Some r0 →
    ∃ r1, heap s' !! l' = Some r1 ∧ P r0 r1)); [| |by eauto].
  - intros p l s1 Hs1 l' r0 Hl'. destruct (Hs1 l' r0 Hl') as (r1 & Hr1 & HP).
    destruct (process_preserves P p l s1 Hrefl (Hstep p) l' r1 Hr1)
      as (r2 & Hr2 & HP2). eauto.
  - intros ev s1 Hs1. exact Hs1.
Qed.

Lemma invoke_all_preserves (P : TextObject → TextObject → Prop) cs s :
  (∀ r, P r r) →
  (∀ r1 r2 r3, P r1 r2 → P r2 r3 → P r1 r3) →
  (∀ p r r', step p r = Ok r' → P r r') →
  ∀ l' r0, heap s !! l' = Some r0 →
    ∃ r1, heap (invoke_all cs s).2 !! l' = Some r1 ∧ P r0 r1.
Proof.
  intros Hrefl Htrans Hstep.
  apply (for_each_state_inv (λ s', ∀ l' r0, heap s !! l' = Some r0 →
    ∃ r1, heap s' !! l' = Some r1 ∧ P r0 r1)); [|by eauto].
  intros [p l] s1 Hs1 l' r0 Hl'. destruct (Hs1 l' r0 Hl') as (r1 & Hr1 & HP).
  destruct (process_preserves P p l s1 Hrefl (Hstep p) l' r1 Hr1)
    as (r2 & Hr2 & HP2). eauto.
Qed.

Lemma run_heap_length self g texts s :
  length (heap (run self g texts s).2) = length (heap s).
Proof.
  apply (run_state_inv (λ s', length (heap s') = length (heap s))); [| |done].
  - intros p l s1 <-. apply process_heap_length.
  - by intros ev s1 <-.
Qed.

Lemma inner_cons p ps l s :
  inner (p :: ps) l s =
    match process p l {| heap := heap s; log := log s ++ [EvProcess p l] |} with
    | (Ok _, s2) => inner ps l s2
    | (Raise e, s2) => (Raise e, s2)
    end.
Proof. reflexivity. Qed.

Lemma run_cons self ps l texts s :
  run self (mkGlobals (Some ps)) (l :: texts) s =
    match inner ps l s with
    | (Ok _, s1) => run self (mkGlobals (Some ps)) texts s1
    | (Raise e, s1) => (Raise e, s1)
    end.
Proof. reflexivity. Qed.

(** The dispatches of the inner loop on one record. *)
Lemma inner_dispatches ps l s :
  ∃ t, dispatches (log (inner ps l s).2) = dispatches (log s) ++ t ∧
       t `prefix_of` map (λ p, (p, l)) ps ∧
       ((inner ps l s).1 = Ok tt → t = map (λ p, (p, l)) ps).
Proof.
  revert s. induction ps as [|p ps IH]; intros s.
  { exists []. simpl. by rewrite app_nil_r. }
  rewrite inner_cons.
  set (s1 := {| heap := heap s; log := log s ++ [EvProcess p l] |}).
  assert (dispatches (log (process p l s1).2) = dispatches (log s) ++ [(p, l)])
    as Hd.
  { rewrite process_dispatches. unfold dispatches, s1. simpl.
    by rewrite omap_app. }
  destruct (process p l s1) as [[[]|e] s2]; simpl in *.
  - destruct (IH s2) as (t & Ht & Hpre & Hok). exists ((p, l) :: t).
    rewrite Ht, Hd, <-app_assoc. split; [done|]. split.
    + by apply prefix_cons.
    + intros H. f_equal. by apply Hok.
  - exists [(p, l)]. split; [done|]. split; [|done].
    apply prefix_cons, prefix_nil.
Qed.

(** ** Records on which a processor has nothing left to do *)

Lemma step_language_detector_settles r r' :
  step LanguageDetector r = Ok r' → step LanguageDetector r' = Ok r'.
Proof.
  simpl. destruct (detect_langs (text r)) as [cands|] eqn:Hd; [|done].
  destruct (head (sorted prob true cands)) as [b|] eqn:Hb; intros [= <-]; simpl;
    by rewrite Hd, Hb.
Qed.

Lemma step_sentiment_detector_settles r r' :
  step SentimentDetector r = Ok r' → step SentimentDetector r' = Ok r'.
Proof.
  simpl. destruct (decide (language r = Some "en")) as [Hen|Hen].
  - destruct (polarity (text r)) as [q|] eqn:Hq; [|done]. intros [= <-]. simpl.
    rewrite decide_True by done. by rewrite Hq.
  - intros [= <-]. by rewrite decide_False.
Qed.

(** Scoring the sentiment does not disturb a settled language. *)
Lemma step_sentiment_keeps_language_settled r r' :
  step LanguageDetector r = Ok r →
  step SentimentDetector r = Ok r' →
  step LanguageDetector r' = Ok r'.
Proof.
  intros HL HS.
  assert (text r' = text r) as Ht by (by eapply step_text).
  assert (language r' = language r) as Hl.
  { revert HS. simpl. destruct (decide _); [|by intros [= <-]].
    destruct (polarity (text r)); [|done]. by intros [= <-]. }
  revert HL. simpl. rewrite Ht.
  destruct (detect_langs (text r)) as [cands|]; [|done].
  destruct (head (sorted prob true cands)) as [b|]; [|done].
  intros [= HL]. f_equal. apply (f_equal language) in HL. simpl in HL.
  destruct r' as [t' l' q']. simpl in *. unfold set_language. simpl. congruence.
Qed.

Lemma steps_after_language_detector ps r r1 :
  step LanguageDetector r = Ok r →
  steps ps r = Ok r1 →
  step LanguageDetector r1 = Ok r1 ∧
  (step SentimentDetector r = Ok r ∨ SentimentDetector ∈ ps →
   step SentimentDetector r1 = Ok r1).
Proof.
  revert r. induction ps as [|p ps IH]; intros r HL Hsteps.
  { injection Hsteps as <-. split; [done|]. intros [H|H]; [done|].
    by apply elem_of_nil in H. }
  destruct p.
  - rewrite steps_cons in Hsteps. rewrite HL in Hsteps.
    destruct (IH r HL Hsteps) as [H1 H2]. split; [done|].
    intros [H|H]; apply H2; [by left|right].
    apply elem_of_cons in H as [H|H]; [done|done].
  - rewrite steps_cons in Hsteps.
    destruct (step SentimentDetector r) as [r'|] eqn:HS; [|done].
    destruct (IH r' (step_sentiment_keeps_language_settled _ _ HL HS) Hsteps)
      as [H1 H2].
    split; [done|]. intros _. apply H2. left.
    by eapply step_sentiment_detector_settles.
Qed.

Lemma not_all_language_detectors ps :
  forallb is_language_detector ps = false → SentimentDetector ∈ ps.
Proof.
  induction ps as [|[] ps IH]; simpl; [done| |]; intros H.
  - right. by apply IH.
  - by left.
Qed.

(** Unless every [SentimentDetector] precedes every [LanguageDetector],
    one pass over a record leaves nothing for any processor of the list. *)
Lemma steps_settle ps r r1 :
  sentiments_first ps = false →
  steps ps r = Ok r1 →
  ∀ p, p ∈ ps → step p r1 = Ok r1.
Proof.
  revert r. induction ps as [|q ps IH]; intros r Hsf Hsteps p Hp.
  { by apply elem_of_nil in Hp. }
  rewrite steps_cons in Hsteps.
  destruct (step q r) as [r'|] eqn:Hq; [|done]. destruct q.
  - destruct (steps_after_language_detector ps r' r1) as [H1 H2];
      [by eapply step_language_detector_settles|done|].
    destruct p; [done|]. apply H2. right.
    apply elem_of_cons in Hp as [Hp|Hp]; [done|done].
  - destruct ps as [|q' ps'].
    + injection Hsteps as <-. apply list_elem_of_singleton in Hp as ->.
      by eapply step_sentiment_detector_settles.
    + cbn [sentiments_first] in Hsf. apply orb_false_iff in Hsf as [Hall Hsf].
      apply not_all_language_detectors in Hall.
      apply elem_of_cons in Hp as [->|Hp]; eauto.
Qed.

Lemma steps_fixed ps r :
  (∀ p, p ∈ ps → step p r = Ok r) → steps ps r = Ok r.
Proof.
  induction ps as [|p ps IH]; intros H; [done|]. rewrite steps_cons.
  rewrite H by (by left). apply IH. intros q Hq. apply H. by right.
Qed.

(** ** The inner loop on one record, through [steps] *)

Lemma inner_unfold ps l s r :
  heap s !! l = Some r →
  match steps ps r with
  | Ok r1 => ∃ s', inner ps l s = (Ok tt, s') ∧ heap s' = <[l := r1]> (heap s)
  | Raise e => ∃ s', inner ps l s = (Raise e, s')
  end.
Proof.
  revert s r. induction ps as [|p ps IH]; intros s r Hl.
  { simpl. exists s. split; [done|]. by rewrite list_insert_id. }
  rewrite inner_cons. rewrite steps_cons.
  set (s1 := {| heap := heap s; log := log s ++ [EvProcess p l] |}).
  rewrite (process_unfold p l s1 r Hl).
  destruct (step p r) as [r'|e]; [|eauto].
  set (s2 := {| heap := <[l:=r']> (heap s1); log := log s1 ++ calls p r |}).
  assert (heap s2 !! l = Some r') as Hl2.
  { simpl. apply list_lookup_insert_eq. by eapply lookup_lt_Some. }
  specialize (IH s2 r' Hl2). destruct (steps ps r') as [r1|e]; [|done].
  destruct IH as (s' & Hrun & Hheap). exists s'. split; [done|].
  rewrite Hheap. simpl. apply list_insert_insert_eq.
Qed.

Lemma inner_dangling p ps l s :
  heap s !! l = None → ∃ s', inner (p :: ps) l s = (Raise (InvalidReference l), s').
Proof.
  intros Hl. rewrite inner_cons. rewrite process_dangling by done. eauto.
Qed.

Lemma inner_other ps l s l' :
  l' ≠ l → heap (inner ps l s).2 !! l' = heap s !! l'.
Proof.
  intros Hne.
  apply (for_each_state_inv (λ s', heap s' !! l' = heap s !! l')); [|done].
  intros p s1 Hs1. unfold mbind, M_bind, emit.
  set (s2 := {| heap := heap s1; log := _ |}).
  pose proof (process_other p l s2 l' Hne) as H.
  destruct (process p l s2) as [[[]|e] s3]; simpl in *; congruence.
Qed.

Lemma run_other self ps texts s l' :
  l' ∉ texts →
  heap (run self (mkGlobals (Some ps)) texts s).2 !! l' = heap s !! l'.
Proof.
  revert s. induction texts as [|l texts IH]; intros s Hnin; [done|].
  apply not_elem_of_cons in Hnin as [Hne Hnin]. rewrite run_cons.
  pose proof (inner_other ps l s l' Hne) as H.
  destruct (inner ps l s) as [[[]|e] s1]; simpl in *; [|done].
  by rewrite IH.
Qed.

Lemma run_no_processors self texts s :
  run self (mkGlobals (Some [])) texts s = (Ok tt, s).
Proof. induction texts as [|l texts IH]; [done|]. by rewrite run_cons. Qed.

(** After a completed run every processed record is settled. *)
Lemma run_settles self p ps texts s s1 :
  sentiments_first (p :: ps) = false →
  run self (mkGlobals (Some (p :: ps))) texts s = (Ok tt, s1) →
  ∀ l, l ∈ texts →
    ∃ r1, heap s1 !! l = Some r1 ∧ steps (p :: ps) r1 = Ok r1.
Proof.
  intros Hsf. revert s. induction texts as [|l texts IH]; intros s Hrun l' Hl'.
  { by apply elem_of_nil in Hl'. }
  rewrite run_cons in Hrun.
  destruct (heap s !! l) as [r|] eqn:Hl.
  2:{ destruct (inner_dangling p ps l s Hl) as (s' & Hs').
      by rewrite Hs' in Hrun. }
  pose proof (inner_unfold (p :: ps) l s r Hl) as Hin.
  destruct (steps (p :: ps) r) as [r1|e] eqn:Hsteps.
  2:{ destruct Hin as (s' & Hs'). by rewrite Hs' in Hrun. }
  destruct Hin as (s' & Hs' & Hheap). rewrite Hs' in Hrun.
  destruct (decide (l' ∈ texts)) as [Hin|Hnin]; [by eapply IH|].
  apply elem_of_cons in Hl' as [->|Hl']; [|done].
  exists r1. split.
  - pose proof (run_other self (p :: ps) texts s' l Hnin) as Ho.
    rewrite Hrun in Ho. simpl in Ho. rewrite Ho, Hheap.
    apply list_lookup_insert_eq. by eapply lookup_lt_Some.
  - apply steps_fixed. by eapply steps_settle.
Qed.

(** A run over settled records completes and changes no record. *)
Lemma run_fixed self ps texts s :
  (∀ l, l ∈ texts → ∃ r, heap s !! l = Some r ∧ steps ps r = Ok r) →
  ∃ s', run self (mkGlobals (Some ps)) texts s = (Ok tt, s') ∧ heap s' = heap s.
Proof.
  revert s. induction texts as [|l texts IH]; intros s Hall; [by exists s|].
  rewrite run_cons.
  destruct (Hall l) as (r & Hl & Hfix); [by left|].
  pose proof (inner_unfold ps l s r Hl) as Hin. rewrite Hfix in Hin.
  destruct Hin as (s1 & -> & Hheap). rewrite list_insert_id in Hheap by done.
  destruct (IH s1) as (s' & Hrun & Hheap').
  { intros l' Hl'. rewrite Hheap. apply Hall. by right. }
  exists s'. split; [done|]. congruence.
Qed.

Lemma steps_app ps qs r :
  steps (ps ++ qs) r =
    match steps ps r with
    | Ok r' => steps qs r'
    | Raise e => Raise e
    end.
Proof.
  revert r. induction ps as [|p ps IH]; intros r; [done|].
  rewrite <-app_comm_cons, !steps_cons. by destruct (step p r).
Qed.

(** A run over a store that holds a single record. *)
Lemma run_single self ps r r1 s :
  heap s = [r] →
  steps ps r = Ok r1 →
  ∃ s', run self (mkGlobals (Some ps)) [0]%nat s = (Ok tt, s') ∧ heap s' = [r1].
Proof.
  intros Hs Hsteps. rewrite run_cons.
  assert (heap s !! 0%nat = Some r) as Hl by (by rewrite Hs).
  pose proof (inner_unfold ps 0%nat s r Hl) as Hin. rewrite Hsteps in Hin.
  destruct Hin as (s' & -> & Hheap). exists s'. split; [done|].
  by rewrite Hheap, Hs.
Qed.

Lemma all_language_detectors ps :
  forallb is_language_detector ps = true →
  ps = replicate (length ps) LanguageDetector.
Proof.
  induction ps as [|[] ps IH]; simpl; [done| |done]. intros H. f_equal. by apply IH.
Qed.

(** The lists excluded by [sentiments_first] are exactly those made of a
    block of sentiment detectors followed by a block of language detectors. *)
Lemma sentiments_first_blocks ps :
  sentiments_first ps = true →
  ∃ k m, ps = replicate (S k) SentimentDetector
                ++ replicate (S m) LanguageDetector.
Proof.
  induction ps as [|p ps IH]; [done|]. destruct p; [done|].
  destruct ps as [|q ps']; [done|]. cbn [sentiments_first].
  intros [Hall|Hsf]%orb_true_iff.
  - exists 0%nat, (length ps'). apply all_language_detectors in Hall.
    simpl in *. by f_equal.
  - destruct (IH Hsf) as (k & m & ->). by exists (S k), m.
Qed.

Lemma steps_sentiment_block k r :
  language r ≠ Some "en" → steps (replicate k SentimentDetector) r = Ok r.
Proof.
  intros Hen. apply steps_fixed. intros p ->%elem_of_replicate_inv.
  simpl. by rewrite decide_False.
Qed.

(** ** The processors *)


(** C4. When the language-identification collaborator returns candidates
    for the record's text, [LanguageDetector.process] replaces the record by
    one with the same [text] and [sentiment] whose [language] is the code of
    one of these candidates, of maximal confidence among them, and changes
    no other record; when it returns no candidate the store is unchanged, so
    an unset language stays unset.  The collaborator is called exactly once
    in both cases.  (This holds for every text, empty or not.) *)
Theorem LanguageDetector_process_spec l s r cands :
  heap s !! l = Some r →
  detect_langs (text r) = Ok cands →
  (cands = [] →
     LanguageDetector_process detect_langs l s =
       (Ok tt, {| heap := heap s; log := log s ++ [EvDetectLangs (text r)] |})) ∧
  (cands ≠ [] →
     ∃ best, best ∈ cands ∧ (∀ c, c ∈ cands → (prob c <= prob best)%Q) ∧
       LanguageDetector_process detect_langs l s =
         (Ok tt, {| heap := <[l := {| text := text r;
                                      language := Some (lang best);
                                      sentiment := sentiment r |}]> (heap s);
                    log := log s ++ [EvDetectLangs (text r)] |}) ∧
       language <$> heap (LanguageDetector_process detect_langs l s).2 !! l
         = Some (Some (lang best))).
Proof.
  intros Hl Hd. pose proof (process_unfold LanguageDetector l s r Hl) as H.
  simpl in H. rewrite Hd in H. split.
  - intros ->. simpl in H. by rewrite list_insert_id in H.
  - intros Hne. destruct (head (sorted prob true cands)) as [best|] eqn:Hb.
    + destruct (head_sorted_max prob cands best Hb) as [Hin Hmax].
      exists best. split; [done|]. split; [done|]. split; [exact H|].
      rewrite H. cbn [snd heap].
      rewrite list_lookup_insert_eq by (by eapply lookup_lt_Some). done.
    + apply head_None, sorted_nil_inv in Hb. done.
Qed.

(** C5 (as amended). [process] of either processor always terminates, and
    it raises only what the collaborator it calls raises on the record's
    text, leaving every record as it was.  [LanguageDetector.process]
    returns normally exactly when the language collaborator returns: with
    zero candidates every record stays as it was, otherwise the record gets
    the language of a candidate and keeps its other fields.
    [SentimentDetector.process] returns normally when the language is not
    ["en"], changing nothing, or when the sentiment collaborator returns,
    storing its score and keeping the other fields. *)
Theorem process_raises_only_with_collaborator p l s r :
  heap s !! l = Some r →
  match p with
  | LanguageDetector =>
      match detect_langs (text r) with
      | Ok [] => ∃ s', process p l s = (Ok tt, s') ∧ heap s' = heap s
      | Ok (c :: cands) =>
          ∃ s' best, process p l s = (Ok tt, s') ∧ best ∈ c :: cands ∧
            heap s' = <[l := {| text := text r;
                                language := Some (lang best);
                                sentiment := sentiment r |}]> (heap s)
      | Raise e => ∃ s', process p l s = (Raise e, s') ∧ heap s' = heap s
      end
  | SentimentDetector =>
      if decide (language r = Some "en") then
        match polarity (text r) with
        | Ok score =>
            ∃ s', process p l s = (Ok tt, s') ∧
              heap s' = <[l := {| text := text r;
                                  language := language r;
                                  sentiment := Some score |}]> (heap s)
        | Raise e => ∃ s', process p l s = (Raise e, s') ∧ heap s' = heap s
        end
      else process p l s = (Ok tt, s)
  end.
Proof.
  intros Hl. rewrite (process_unfold p l s r Hl). destruct p; simpl.
  - destruct (detect_langs (text r)) as [[|c cands]|e]; [| |eauto].
    + simpl. eexists. split; [done|]. simpl. by apply list_insert_id.
    + destruct (head (sorted prob true (c :: cands))) as [best|] eqn:Hb.
      * apply head_sorted_max in Hb as [Hin _]. eexists _, best. done.
      * by apply head_None, sorted_nil_inv in Hb.
  - destruct (decide _).
    + destruct (polarity (text r)); eauto.
    + by rewrite list_insert_id, app_nil_r, state_eta.
Qed.

(** C7. A record constructed from its text alone has [language] and
    [sentiment] unset, and no [process] call and no [Pipeline.run], whether
    it returns or raises, turns a set [language] or a set [sentiment] of any
    record into an unset one. *)
Theorem fields_start_unset_and_stay_set :
  (∀ t, text (TextObject_of_text t) = t ∧
        language (TextObject_of_text t) = None ∧
        sentiment (TextObject_of_text t) = None) ∧
  (∀ p l s l' r, heap s !! l' = Some r →
     ∃ r', heap (process p l s).2 !! l' = Some r' ∧
           (is_Some (language r) → is_Some (language r')) ∧
           (is_Some (sentiment r) → is_Some (sentiment r'))) ∧
  (∀ self g texts s l' r, heap s !! l' = Some r →
     ∃ r', heap (run self g texts s).2 !! l' = Some r' ∧
           (is_Some (language r) → is_Some (language r')) ∧
           (is_Some (sentiment r) → is_Some (sentiment r'))).
Proof.
  assert (∀ p r r', step p r = Ok r' →
    (is_Some (language r) → is_Some (language r')) ∧
    (is_Some (sentiment r) → is_Some (sentiment r'))) as Hstep.
  { intros p r1 r2 Hst.
    split; [by eapply step_language_set|by eapply step_sentiment_set]. }
  split; [done|]. split.
  - intros p l s l' r Hl'.
    by apply (process_preserves (λ r r',
      (is_Some (language r) → is_Some (language r')) ∧
      (is_Some (sentiment r) → is_Some (sentiment r')))); [|apply Hstep|].
  - intros self g texts s l' r Hl'.
    apply (run_preserves (λ r r',
      (is_Some (language r) → is_Some (language r')) ∧
      (is_Some (sentiment r) → is_Some (sentiment r')))); [done| |done|done].
    intros r1 r2 r3 [H1 H2] [H3 H4]. split; eauto.
Qed.

(** ** The pipeline *)

Lemma lookup_text_preserved (h h' : list TextObject) l :
  length h' = length h →
  (∀ r, h !! l = Some r → ∃ r', h' !! l = Some r' ∧ text r' = text r) →
  text <$> h' !! l = text <$> h !! l.
Proof.
  intros Hlen H. destruct (h !! l) as [r|] eqn:Hl.
  - destruct (H r eq_refl) as (r' & -> & Ht). simpl. by rewrite Ht.
  - apply lookup_ge_None in Hl. rewrite <-Hlen in Hl.
    apply lookup_ge_None in Hl. by rewrite Hl.
Qed.

(** C8. A record is constructed with the text it is given, and the [text]
    of every record in the store is the same after one
    [process] call, after any sequence of [process] calls, and after
    [Pipeline.run], as it was before, whether the calls return or raise. *)
Theorem text_is_never_modified :
  (∀ t lang sent, text (TextObject_init t lang sent) = t) ∧
  (∀ p l s l', text <$> heap (process p l s).2 !! l' = text <$> heap s !! l') ∧
  (∀ cs s l', text <$> heap (invoke_all cs s).2 !! l' = text <$> heap s !! l') ∧
  (∀ self g texts s l',
     text <$> heap (run self g texts s).2 !! l' = text <$> heap s !! l').
Proof.
  split; [done|]. split; [|split].
  - intros p l s l'. apply lookup_text_preserved; [apply process_heap_length|].
    intros r Hr. apply (process_preserves (λ r r', text r' = text r));
      [done|apply step_text|done].
  - intros cs s l'. apply lookup_text_preserved.
    + apply (for_each_state_inv (λ s', length (heap s') = length (heap s)));
        [|done]. intros [p l] s1 <-. apply process_heap_length.
    + intros r Hr. apply (invoke_all_preserves (λ r r', text r' = text r));
        [done|congruence|apply step_text|done].
  - intros self g texts s l'. apply lookup_text_preserved;
      [apply run_heap_length|].
    intros r Hr. apply (run_preserves (λ r r', text r' = text r));
      [done|congruence|apply step_text|done].
Qed.

Lemma run_as_for_each self g texts :
  run self g texts = for_each texts (run_body detect_langs polarity g).
Proof. reflexivity. Qed.

(** Iterating a list object with a body that works on records only is the
    loop over the contents the object has when the iteration starts. *)
Lemma for_in_for_each (body : loc → M unit) fuel ref i texts w :
  sequences w !! ref = Some texts →
  length texts - i < fuel →
  for_in fuel ref i (λ x, lift_store (body x)) w =
    Some ((for_each (drop i texts) body (store w)).1,
          {| store := (for_each (drop i texts) body (store w)).2;
             sequences := sequences w |}).
Proof.
  revert i w. induction fuel as [|fuel IH]; intros i w Hseq Hfuel; [lia|].
  cbn [for_in]. rewrite Hseq. destruct (texts !! i) as [x|] eqn:Hx.
  - rewrite (drop_S _ _ _ Hx). cbn [for_each]. unfold mbind, M_bind. cbv beta.
    change (lift_store (body x) w)
      with ((body x (store w)).1,
            {| store := (body x (store w)).2; sequences := sequences w |}).
    destruct (body x (store w)) as [[[]|e] s1]; [|done]. cbn [fst snd].
    rewrite (IH (S i) {| store := s1; sequences := sequences w |} Hseq); [done|].
    apply lookup_lt_Some in Hx. lia.
  - apply lookup_ge_None in Hx. rewrite drop_ge by done. by destruct w.
Qed.

(** C9. [Pipeline.run] over a list object terminates and leaves that list
    object, and every other one, exactly as it was: the same references in
    the same order, none dropped and none added.  It creates and destroys
    no record, every record keeps its text, and what it does to the records
    is what [run] does given the contents of the list. *)
Theorem run_keeps_record_sequence self g fuel ref texts w :
  sequences w !! ref = Some texts →
  length texts < fuel →
  ∃ res w',
    Pipeline_run detect_langs polarity self g fuel ref w = Some (res, w') ∧
    sequences w' !! ref = Some texts ∧
    sequences w' = sequences w ∧
    length (heap (store w')) = length (heap (store w)) ∧
    (∀ l, text <$> heap (store w') !! l = text <$> heap (store w) !! l) ∧
    (res, store w') = run self g texts (store w).
Proof.
  intros Hseq Hfuel. unfold Pipeline_run.
  rewrite (for_in_for_each _ fuel ref 0 texts w Hseq) by lia.
  rewrite drop_0, <-(run_as_for_each self). eexists _, _. split; [done|].
  cbn [sequences store]. split; [done|]. split; [done|].
  split; [apply run_heap_length|]. split.
  - intros l. apply lookup_text_preserved; [apply run_heap_length|].
    intros r Hr. apply (run_preserves (λ r r', text r' = text r));
      [done|congruence|apply step_text|done].
  - by destruct (run self g texts (store w)).
Qed.

(** C10. [Pipeline.run] is record-major over the processor sequence [ps] it
    iterates: the [process] calls it dispatches are, in order, those of
    [schedule ps texts] (all of [ps] on the first record, then all of [ps]
    on the second, ...), the whole of it when the run completes and an
    initial segment of it when a call raises. *)
Theorem run_record_major self ps texts s :
  ∃ t, dispatches (log (run self (mkGlobals (Some ps)) texts s).2)
         = dispatches (log s) ++ t ∧
       t `prefix_of` schedule ps texts ∧
       ((run self (mkGlobals (Some ps)) texts s).1 = Ok tt →
        t = schedule ps texts).
Proof.
  revert s. induction texts as [|l texts IH]; intros s.
  { exists []. simpl. by rewrite app_nil_r. }
  rewrite run_cons.
  destruct (inner_dispatches ps l s) as (t1 & Ht1 & Hpre1 & Hok1).
  destruct (inner ps l s) as [[[]|e] s1]; simpl in *.
  - destruct (IH s1) as (t & Ht & Hpre & Hok). exists (t1 ++ t).
    rewrite Ht, Ht1, <-app_assoc.
    split; [done|]. rewrite Hok1 by done. split.
    + by apply prefix_app.
    + intros H. f_equal. by apply Hok.
  - exists t1. split; [done|]. split; [|done]. by apply prefix_app_r.
Qed.

(** C6 (as amended). Whatever processor list [run] iterates, unless it
    puts every [SentimentDetector] before every [LanguageDetector]: if one
    run over the records completes, a second run over the same records
    completes too and leaves every record of the store as the first run
    left it. *)
Theorem run_twice_same_as_once self g texts s s1 :
  (∀ ps, g_processors g = Some ps → sentiments_first ps = false) →
  run self g texts s = (Ok tt, s1) →
  ∃ s2, run self g texts s1 = (Ok tt, s2) ∧ heap s2 = heap s1.
Proof.
  intros Hsf Hrun. destruct g as [[ps|]].
  - specialize (Hsf ps eq_refl). destruct ps as [|p ps].
    + rewrite run_no_processors. eauto.
    + apply run_fixed. by eapply run_settles.
  - rewrite run_unbound in *. destruct texts; [eauto|done].
Qed.

End Facts.

(** * The notebook's pipeline on concrete stores *)

(** C1 (defect in [run]). The loop of [run] iterates the global name
    [processors] and never reads [self.processors]: the result of [run] is
    the same for every pipeline object.  A pipeline built with
    [[LanguageDetector]] run while the global is bound to
    [[SentimentDetector]] dispatches the sentiment detector on each record
    and never its own language detector; with the global unbound it raises
    [NameError]. *)
Theorem run_ignores_own_processors :
  (∀ dl pol own own' g texts s,
     run dl pol own g texts s = run dl pol own' g texts s) ∧
  run sample_detect_langs sample_polarity (mkPipeline [LanguageDetector])
      (mkGlobals (Some [SentimentDetector])) [0; 1]%nat notebook_state
    = (Ok tt, mkState notebook_texts
                [EvProcess SentimentDetector 0; EvProcess SentimentDetector 1]) ∧
  run sample_detect_langs sample_polarity (mkPipeline [LanguageDetector])
      (mkGlobals None) [0; 1]%nat notebook_state
    = (Raise (NameError "processors"), notebook_state).
Proof. split; [reflexivity|]. split; vm_compute; reflexivity. Qed.

(** C2 (same defect). A pipeline constructed with an empty processor list,
    run while the global [processors] is the notebook's
    [[LanguageDetector; SentimentDetector]], fills in [language] and
    [sentiment] of the records instead of leaving them unchanged. *)
Theorem run_empty_pipeline_mutates_records :
  heap (run sample_detect_langs sample_polarity (mkPipeline [])
          (mkGlobals (Some [LanguageDetector; SentimentDetector]))
          [0; 1]%nat notebook_state).2
    = [ mkTextObject hello_text (Some "en") (Some (75 # 100));
        mkTextObject german_text (Some "de") None ] ∧
  heap notebook_state
    = [ mkTextObject hello_text None None;
        mkTextObject german_text None None ].
Proof. split; vm_compute; reflexivity. Qed.


Lemma LanguageDetector_process_spec_witness :
  ∃ best,
    best ∈ [mkLanguage "nl" (2 # 7); mkLanguage "de" (4 # 7); mkLanguage "fi" (1 # 7)] ∧
    (∀ c, c ∈ [mkLanguage "nl" (2 # 7); mkLanguage "de" (4 # 7); mkLanguage "fi" (1 # 7)] →
          (prob c <= prob best)%Q) ∧
    LanguageDetector_process sample_detect_langs 0
        (mkState [TextObject_of_text "Hallo"] [])
      = (Ok tt, mkState [mkTextObject "Hallo" (Some (lang best)) None]
                        [EvDetectLangs "Hallo"]) ∧
    language <$> heap (LanguageDetector_process sample_detect_langs 0
                         (mkState [TextObject_of_text "Hallo"] [])).2 !! 0%nat
      = Some (Some (lang best)).
Proof.
  refine (proj2 (LanguageDetector_process_spec sample_detect_langs
    sample_polarity 0 (mkState [TextObject_of_text "Hallo"] [])
    (TextObject_of_text "Hallo") _ _ _) _);
    [reflexivity|reflexivity|discriminate].
Defined.

(** C5 as stated fails: on a record with empty text the language
    collaborator (here, as [langdetect] does) raises, and
    [LanguageDetector.process], which has no handler, raises too. *)
Lemma process_raises_on_empty_text :
  process sample_detect_langs sample_polarity LanguageDetector 0
      (mkState [TextObject_of_text ""] [])
    = (Raise (LibraryError "No features in text."),
       mkState [TextObject_of_text ""] [EvDetectLangs ""]) ∧
  ¬ (∀ dl pol p l s r, heap s !! l = Some r →
       ∃ s', process dl pol p l s = (Ok tt, s')).
Proof.
  split; [reflexivity|]. intros H.
  destruct (H sample_detect_langs sample_polarity LanguageDetector 0%nat
    (mkState [TextObject_of_text ""] []) (TextObject_of_text "") eq_refl)
    as [s' Hs']. discriminate Hs'.
Qed.

Lemma process_raises_only_with_collaborator_witness :
  (∃ s', process sample_detect_langs sample_polarity LanguageDetector 0
           (mkState [TextObject_of_text ""] [])
         = (Raise (LibraryError "No features in text."), s') ∧
         heap s' = [TextObject_of_text ""]) ∧
  (∃ s', process sample_detect_langs sample_polarity LanguageDetector 0
           (mkState [mkTextObject "zzz" (Some "fr") (Some (1 # 2))] [])
         = (Ok tt, s') ∧
         heap s' = [mkTextObject "zzz" (Some "fr") (Some (1 # 2))]) ∧
  (∃ s' best, process sample_detect_langs sample_polarity LanguageDetector 0
                (mkState [TextObject_of_text hello_text] []) = (Ok tt, s') ∧
              best ∈ [mkLanguage "en" (999996 # 1000000)] ∧
              heap s' = [mkTextObject hello_text (Some (lang best)) None]) ∧
  (∃ s', process sample_detect_langs sample_polarity SentimentDetector 0
           (mkState [mkTextObject hello_text (Some "en") None] [])
         = (Ok tt, s') ∧
         heap s' = [mkTextObject hello_text (Some "en") (Some (75 # 100))]).
Proof.
  split; [|split; [|split]].
  - refine (process_raises_only_with_collaborator sample_detect_langs
      sample_polarity LanguageDetector 0 (mkState [TextObject_of_text ""] [])
      (TextObject_of_text "") _). reflexivity.
  - refine (process_raises_only_with_collaborator sample_detect_langs
      sample_polarity LanguageDetector 0
      (mkState [mkTextObject "zzz" (Some "fr") (Some (1 # 2))] [])
      (mkTextObject "zzz" (Some "fr") (Some (1 # 2))) _). reflexivity.
  - refine (process_raises_only_with_collaborator sample_detect_langs
      sample_polarity LanguageDetector 0
      (mkState [TextObject_of_text hello_text] [])
      (TextObject_of_text hello_text) _). reflexivity.
  - refine (process_raises_only_with_collaborator sample_detect_langs
      sample_polarity SentimentDetector 0
      (mkState [mkTextObject hello_text (Some "en") None] [])
      (mkTextObject hello_text (Some "en") None) _). reflexivity.
Defined.

Lemma run_keeps_record_sequence_witness :
  ∃ res w',
    Pipeline_run sample_detect_langs sample_polarity
        (mkPipeline [LanguageDetector; SentimentDetector])
        (mkGlobals (Some [LanguageDetector; SentimentDetector])) 3 0
        (mkWorld notebook_state [[1; 0]%nat]) = Some (res, w') ∧
    sequences w' !! 0%nat = Some [1; 0]%nat ∧
    sequences w' = [[1; 0]%nat] ∧
    length (heap (store w')) = 2%nat ∧
    (∀ l, text <$> heap (store w') !! l = text <$> notebook_texts !! l) ∧
    (res, store w')
      = run sample_detect_langs sample_polarity
          (mkPipeline [LanguageDetector; SentimentDetector])
          (mkGlobals (Some [LanguageDetector; SentimentDetector]))
          [1; 0]%nat notebook_state.
Proof.
  refine (run_keeps_record_sequence sample_detect_langs sample_polarity
    (mkPipeline [LanguageDetector; SentimentDetector])
    (mkGlobals (Some [LanguageDetector; SentimentDetector])) 3 0%nat
    [1; 0]%nat (mkWorld notebook_state [[1; 0]%nat]) _ _).
  - reflexivity.
  - simpl. lia.
Defined.

(** C6 as stated fails for the processor order
    [[SentimentDetector; LanguageDetector]]: the first run scores nothing,
    because the language is still unset when the sentiment detector sees the
    record, and detects English; the second run then stores a sentiment. *)
Lemma run_twice_differs_sentiment_first :
  let ps := [SentimentDetector; LanguageDetector] in
  let run1 := run sample_detect_langs sample_polarity (mkPipeline ps)
                (mkGlobals (Some ps)) [0]%nat in
  let s0 := mkState [TextObject_of_text hello_text] [] in
  (run1 s0).1 = Ok tt ∧
  (run1 (run1 s0).2).1 = Ok tt ∧
  heap (run1 s0).2 = [mkTextObject hello_text (Some "en") None] ∧
  heap (run1 (run1 s0).2).2
    = [mkTextObject hello_text (Some "en") (Some (75 # 100))] ∧
  heap (run1 (run1 s0).2).2 ≠ heap (run1 s0).2.
Proof.
  cbv zeta. repeat split; try (vm_compute; reflexivity).
  vm_compute. discriminate.
Qed.

Lemma run_twice_same_as_once_witness :
  let ps := [LanguageDetector; SentimentDetector] in
  let s1 := (run sample_detect_langs sample_polarity (mkPipeline ps)
               (mkGlobals (Some ps)) [0; 1; 0]%nat notebook_state).2 in
  ∃ s2, run sample_detect_langs sample_polarity (mkPipeline ps)
            (mkGlobals (Some ps)) [0; 1; 0]%nat s1 = (Ok tt, s2) ∧
        heap s2 = heap s1.
Proof.
  cbv zeta.
  refine (run_twice_same_as_once sample_detect_langs sample_polarity
    (mkPipeline [LanguageDetector; SentimentDetector])
    (mkGlobals (Some [LanguageDetector; SentimentDetector]))
    [0; 1; 0]%nat notebook_state _ _ _).
  - intros ps [= <-]. reflexivity.
  - vm_compute. reflexivity.
Defined.

Lemma fields_start_unset_and_stay_set_witness :
  ∃ r', heap (process sample_detect_langs sample_polarity LanguageDetector 0
                (mkState [mkTextObject "zzz" (Some "fr") (Some (1 # 2))] [])).2
          !! 0%nat = Some r' ∧
        (is_Some (Some "fr") → is_Some (language r')) ∧
        (is_Some (Some (1 # 2)%Q) → is_Some (sentiment r')).
Proof.
  refine (proj1 (proj2 (fields_start_unset_and_stay_set sample_detect_langs
    sample_polarity)) LanguageDetector 0%nat
    (mkState [mkTextObject "zzz" (Some "fr") (Some (1 # 2))] []) 0%nat
    (mkTextObject "zzz" (Some "fr") (Some (1 # 2))) _).
  reflexivity.
Defined.

Lemma run_record_major_witness :
  ∃ t, dispatches (log (run sample_detect_langs sample_polarity
                          (mkPipeline [LanguageDetector; SentimentDetector])
                          (mkGlobals (Some [LanguageDetector; SentimentDetector]))
                          [0; 1]%nat notebook_state).2) = [] ++ t ∧
       t `prefix_of` [ (LanguageDetector, 0%nat); (SentimentDetector, 0%nat);
                       (LanguageDetector, 1%nat); (SentimentDetector, 1%nat) ] ∧
       ((run sample_detect_langs sample_polarity
           (mkPipeline [LanguageDetector; SentimentDetector])
           (mkGlobals (Some [LanguageDetector; SentimentDetector]))
           [0; 1]%nat notebook_state).1 = Ok tt →
        t = [ (LanguageDetector, 0%nat); (SentimentDetector, 0%nat);
              (LanguageDetector, 1%nat); (SentimentDetector, 1%nat) ]).
Proof.
  exact (run_record_major sample_detect_langs sample_polarity
    (mkPipeline [LanguageDetector; SentimentDetector])
    [LanguageDetector; SentimentDetector] [0; 1]%nat notebook_state).
Defined.

(** The exclusion in the amended C6 is tight: for every processor list it
    excludes, the first run over the notebook's English text detects the
    language and scores nothing, and the second run stores the score. *)
Lemma run_twice_differs_whenever_sentiments_first ps :
  sentiments_first ps = true →
  let run1 := run sample_detect_langs sample_polarity (mkPipeline ps)
                (mkGlobals (Some ps)) [0]%nat in
  let s0 := mkState [TextObject_of_text hello_text] [] in
  (run1 s0).1 = Ok tt ∧
  (run1 (run1 s0).2).1 = Ok tt ∧
  heap (run1 s0).2 = [mkTextObject hello_text (Some "en") None] ∧
  heap (run1 (run1 s0).2).2
    = [mkTextObject hello_text (Some "en") (Some (75 # 100))].
Proof.
  intros (k & m & ->)%sentiments_first_blocks. cbv zeta.
  set (ps := replicate (S k) SentimentDetector ++ replicate (S m) LanguageDetector).
  set (r1 := mkTextObject hello_text (Some "en") None).
  set (r2 := mkTextObject hello_text (Some "en") (Some (75 # 100))).
  assert (steps sample_detect_langs sample_polarity ps
            (TextObject_of_text hello_text) = Ok r1) as H1.
  { unfold ps. rewrite steps_app, steps_sentiment_block by done.
    rewrite replicate_S, steps_cons.
    change (step sample_detect_langs sample_polarity LanguageDetector
              (TextObject_of_text hello_text)) with (Ok r1).
    apply steps_fixed. by intros p ->%elem_of_replicate_inv. }
  assert (steps sample_detect_langs sample_polarity ps r1 = Ok r2) as H2.
  { unfold ps. rewrite replicate_S, <-app_comm_cons, steps_cons.
    change (step sample_detect_langs sample_polarity SentimentDetector r1)
      with (Ok r2).
    apply steps_fixed. intros [] _; reflexivity. }
  destruct (run_single sample_detect_langs sample_polarity (mkPipeline ps) ps
              _ r1 (mkState [TextObject_of_text hello_text] []) eq_refl H1)
    as (s1 & Hrun1 & Hheap1).
  rewrite Hrun1. simpl.
  destruct (run_single sample_detect_langs sample_polarity (mkPipeline ps) ps
              r1 r2 s1 Hheap1 H2) as (s2 & Hrun2 & Hheap2).
  rewrite Hrun2. done.
Qed.

(** * Further properties of the processors and of [run] *)

Section Further.

Variable detect_langs : string → result (list Language).
Variable polarity : string → result Q.

Local Abbreviation process := (process detect_langs polarity).
Local Abbreviation step := (step detect_langs polarity).
Local Abbreviation steps := (steps detect_langs polarity).
Local Abbreviation run := (run detect_langs polarity).
Local Abbreviation inner_heap := (inner_heap detect_langs polarity).
Local Abbreviation run_heap := (run_heap detect_langs polarity).
Local Abbreviation inner ps l :=
  (for_each ps (λ processor,
     emit (EvProcess processor l) ;; process processor l)).

(** ** [run] on the store alone *)

Lemma inner_heap_cons p ps l h :
  inner_heap (p :: ps) l h =
    match h !! l with
    | None => Raise (InvalidReference l)
    | Some r =>
        match steps (p :: ps) r with
        | Ok r1 => Ok (<[l := r1]> h)
        | Raise e => Raise e
        end
    end.
Proof. reflexivity. Qed.

Lemma run_heap_cons ps l texts h :
  run_heap ps (l :: texts) h =
    match inner_heap ps l h with
    | Ok h1 => run_heap ps texts h1
    | Raise e => Raise e
    end.
Proof. reflexivity. Qed.

Lemma inner_heap_spec ps l s :
  match inner_heap ps l (heap s) with
  | Ok h' => ∃ s', inner ps l s = (Ok tt, s') ∧ heap s' = h'
  | Raise e => ∃ s', inner ps l s = (Raise e, s')
  end.
Proof.
  destruct ps as [|p ps]; [simpl; eauto|]. rewrite inner_heap_cons.
  destruct (heap s !! l) as [r|] eqn:Hl.
  - pose proof (inner_unfold detect_langs polarity (p :: ps) l s r Hl) as H.
    by destruct (steps (p :: ps) r).
  - by apply inner_dangling.
Qed.

Lemma run_heap_spec self ps texts s :
  match run_heap ps texts (heap s) with
  | Ok h' => ∃ s', run self (mkGlobals (Some ps)) texts s = (Ok tt, s') ∧
                   heap s' = h'
  | Raise e => ∃ s', run self (mkGlobals (Some ps)) texts s = (Raise e, s')
  end.
Proof.
  revert s. induction texts as [|l texts IH]; intros s; [simpl; eauto|].
  rewrite run_heap_cons, run_cons. pose proof (inner_heap_spec ps l s) as H.
  destruct (inner_heap ps l (heap s)) as [h1|e].
  - destruct H as (s1 & -> & <-). apply IH.
  - destruct H as (s1 & ->). eauto.
Qed.

Lemma run_heap_complete self ps texts s s1 :
  run self (mkGlobals (Some ps)) texts s = (Ok tt, s1) →
  run_heap ps texts (heap s) = Ok (heap s1).
Proof.
  intros Hrun. pose proof (run_heap_spec self ps texts s) as H.
  destruct (run_heap ps texts (heap s)) as [h'|e].
  - destruct H as (s' & Hs' & <-). congruence.
  - destruct H as (s' & Hs'). congruence.
Qed.

Lemma run_heap_sound self ps texts s h' :
  run_heap ps texts (heap s) = Ok h' →
  ∃ s', run self (mkGlobals (Some ps)) texts s = (Ok tt, s') ∧ heap s' = h'.
Proof.
  intros Hh. pose proof (run_heap_spec self ps texts s) as H.
  by rewrite Hh in H.
Qed.

Lemma run_heap_app ps texts1 texts2 h :
  run_heap ps (texts1 ++ texts2) h =
    match run_heap ps texts1 h with
    | Ok h1 => run_heap ps texts2 h1
    | Raise e => Raise e
    end.
Proof.
  revert h. induction texts1 as [|l texts1 IH]; intros h; [done|].
  rewrite <-app_comm_cons, !run_heap_cons.
  by destruct (inner_heap ps l h).
Qed.

Lemma inner_heap_other ps l h h1 l' :
  l' ≠ l → inner_heap ps l h = Ok h1 → h1 !! l' = h !! l'.
Proof.
  intros Hne. destruct ps as [|p ps]; [by intros [= <-]|].
  rewrite inner_heap_cons. destruct (h !! l) as [r|]; [|done].
  destruct (steps (p :: ps) r); [|done]. intros [= <-].
  by apply list_lookup_insert_ne.
Qed.

Lemma run_heap_other ps texts h h1 l' :
  l' ∉ texts → run_heap ps texts h = Ok h1 → h1 !! l' = h !! l'.
Proof.
  revert h. induction texts as [|l texts IH]; intros h Hnin; [by intros [= <-]|].
  apply not_elem_of_cons in Hnin as [Hne Hnin]. rewrite run_heap_cons.
  destruct (inner_heap ps l h) as [h0|] eqn:Hin; [|done]. intros Hrun.
  rewrite (IH h0 Hnin Hrun). by eapply inner_heap_other.
Qed.

(** Two inner loops that complete one after the other complete in the
    other order too, with the same store. *)
Lemma inner_heap_swap ps x y h h1 h2 :
  inner_heap ps x h = Ok h1 →
  inner_heap ps y h1 = Ok h2 →
  ∃ h1', inner_heap ps y h = Ok h1' ∧ inner_heap ps x h1' = Ok h2.
Proof.
  destruct (decide (x = y)) as [->|Hne]; [eauto|].
  destruct ps as [|p ps]; [intros [= <-] [= <-]; eauto|].
  rewrite !inner_heap_cons.
  destruct (h !! x) as [rx|] eqn:Hx; [|done].
  destruct (steps (p :: ps) rx) as [rx'|] eqn:Hsx; [|done]. intros [= <-].
  rewrite list_lookup_insert_ne by done.
  destruct (h !! y) as [ry|] eqn:Hy; [|done].
  destruct (steps (p :: ps) ry) as [ry'|] eqn:Hsy; [|done]. intros [= <-].
  eexists. split; [done|]. rewrite inner_heap_cons.
  rewrite list_lookup_insert_ne by done. rewrite Hx, Hsx.
  f_equal. by apply list_insert_insert_ne.
Qed.

Lemma run_heap_permutation ps texts texts' :
  texts ≡ₚ texts' →
  ∀ h h1, run_heap ps texts h = Ok h1 → run_heap ps texts' h = Ok h1.
Proof.
  induction 1 as [|l t t' _ IH|x y t|t t' t'' _ IH1 _ IH2]; intros h h1.
  - done.
  - rewrite !run_heap_cons. destruct (inner_heap ps l h); [apply IH|done].
  - rewrite !run_heap_cons.
    destruct (inner_heap ps y h) as [ha|] eqn:Hy; [|done].
    rewrite run_heap_cons.
    destruct (inner_heap ps x ha) as [hb|] eqn:Hx; [|done]. intros Hrun.
    destruct (inner_heap_swap ps y x h ha hb Hy Hx) as (hc & -> & Hc).
    by rewrite run_heap_cons, Hc.
  - intros Hrun. by apply IH2, IH1.
Qed.


Lemma for_each_app {A} (xs ys : list A) body s :
  for_each (xs ++ ys) body s =
    match for_each xs body s with
    | (Ok _, s1) => for_each ys body s1
    | (Raise e, s1) => (Raise e, s1)
    end.
Proof.
  revert s. induction xs as [|x xs IH]; intros s; [done|].
  simpl. unfold mbind, M_bind. destruct (body x s) as [[[]|e] s1]; [|done].
  apply IH.
Qed.

Lemma inner_heap_local ps l h ha hb :
  h !! l = ha !! l →
  inner_heap ps l ha = Ok hb →
  ∃ hb', inner_heap ps l h = Ok hb' ∧ hb' !! l = hb !! l.
Proof.
  intros Hl. destruct ps as [|p ps]; [intros [= <-]; eauto|].
  rewrite !inner_heap_cons, Hl. destruct (ha !! l) as [r|] eqn:Hr; [|done].
  destruct (steps (p :: ps) r) as [r1|]; [|done]. intros [= <-].
  eexists. split; [done|].
  rewrite !list_lookup_insert_eq; [done| |].
  - by eapply lookup_lt_Some.
  - eapply lookup_lt_Some. by rewrite Hl.
Qed.

Lemma steps_text ps r r1 : steps ps r = Ok r1 → text r1 = text r.
Proof.
  revert r. induction ps as [|p ps IH]; intros r; [by intros [= <-]|].
  rewrite steps_cons. destruct (step p r) as [r'|] eqn:Hst; [|done].
  intros H. rewrite (IH r' H). by eapply step_text.
Qed.

Lemma steps_raise ps r e :
  steps ps r = Raise e →
  detect_langs (text r) = Raise e ∨ polarity (text r) = Raise e.
Proof.
  revert r. induction ps as [|p ps IH]; intros r; [done|].
  rewrite steps_cons. destruct (step p r) as [r'|e'] eqn:Hst.
  - intros H. rewrite <-(step_text _ _ _ _ _ Hst). by apply IH.
  - intros [= ->]. revert Hst. destruct p; simpl.
    + destruct (detect_langs (text r)); [|by left; congruence].
      by destruct (head _).
    + destruct (decide _); [|done].
      destruct (polarity (text r)); [done|]. right. congruence.
Qed.

Lemma run_heap_raise ps texts h e :
  (∀ l, l ∈ texts → l < length h) →
  run_heap ps texts h = Raise e →
  ∃ l r, l ∈ texts ∧ h !! l = Some r ∧
         (detect_langs (text r) = Raise e ∨ polarity (text r) = Raise e).
Proof.
  revert h. induction texts as [|l texts IH]; intros h Hvalid; [done|].
  rewrite run_heap_cons. destruct (inner_heap ps l h) as [h1|e'] eqn:Hin.
  - intros Hrun.
    assert (length h1 = length h ∧
            ∀ l', text <$> h1 !! l' = text <$> h !! l') as [Hlen Htxt].
    { destruct ps as [|p ps]; [by injection Hin as <-|].
      rewrite inner_heap_cons in Hin.
      destruct (h !! l) as [r|] eqn:Hl; [|done].
      destruct (steps (p :: ps) r) as [r1|] eqn:Hst; [|done].
      injection Hin as <-. split; [apply length_insert|]. intros l'.
      destruct (decide (l' = l)) as [->|Hne].
      - rewrite list_lookup_insert_eq by (by eapply lookup_lt_Some).
        rewrite Hl. simpl. f_equal. by eapply steps_text.
      - by rewrite list_lookup_insert_ne. }
    destruct (IH h1) as (l' & r1 & Hl' & Hr1 & Hraise); [|done|].
    { intros l' Hl'. rewrite Hlen. apply Hvalid. by right. }
    specialize (Htxt l'). rewrite Hr1 in Htxt.
    destruct (h !! l') as [r|] eqn:Hr; [|done]. injection Htxt as Htxt.
    exists l', r. split; [by right|]. split; [done|]. by rewrite <-Htxt.
  - intros [= ->]. destruct ps as [|p ps]; [done|].
    rewrite inner_heap_cons in Hin.
    destruct (h !! l) as [r|] eqn:Hl.
    + destruct (steps (p :: ps) r) eqn:Hst; [done|]. injection Hin as ->.
      exists l, r. split; [by left|]. split; [done|]. by eapply steps_raise.
    + apply lookup_ge_None in Hl.
      assert (l < length h) by (apply Hvalid; by left). lia.
Qed.

(** ** How [run] composes and what it leaves alone *)

(** X1. Running over a concatenated sequence is running over the first
    part and then, if that completed, over the second part from the state
    the first left; if the first part raises, the run stops there and
    nothing of the second part is processed. *)
Theorem run_app self g texts1 texts2 s :
  run self g (texts1 ++ texts2) s =
    match run self g texts1 s with
    | (Ok _, s1) => run self g texts2 s1
    | (Raise e, s1) => (Raise e, s1)
    end.
Proof. apply for_each_app. Qed.

(** X2. [run] changes no record outside the sequence it is given, whether
    it completes or raises. *)
Theorem run_frame self g texts s l' :
  l' ∉ texts → heap (run self g texts s).2 !! l' = heap s !! l'.
Proof.
  intros Hnin. destruct g as [[ps|]].
  - by apply run_other.
  - rewrite run_unbound. by destruct texts.
Qed.

(** X3. While the global [processors] is bound to an empty list, [run]
    returns normally and leaves the whole state as it was, records and log,
    whatever the pipeline object was constructed with. *)
Theorem run_with_no_global_processors self texts s :
  run self (mkGlobals (Some [])) texts s = (Ok tt, s).
Proof. apply run_no_processors. Qed.

(** X4. While the global [processors] is unbound, [run] over a non-empty
    sequence raises [NameError] before anything is dispatched or changed,
    whatever the pipeline object was constructed with; over an empty
    sequence it returns normally, because the name is never looked up. *)
Theorem run_unbound_global self texts s :
  (texts ≠ [] →
     run self (mkGlobals None) texts s = (Raise (NameError "processors"), s)) ∧
  (texts = [] → run self (mkGlobals None) texts s = (Ok tt, s)).
Proof. rewrite run_unbound. by destruct texts. Qed.

(** X5. With deterministic collaborators, records are processed
    independently: when the sequence has no repeated record and the run
    over it completes, the record at each position ends up exactly as a run
    over that record alone, from the same initial state, leaves it (and
    that run completes too). *)
Theorem run_record_independent self ps texts s s1 l :
  NoDup texts →
  l ∈ texts →
  run self (mkGlobals (Some ps)) texts s = (Ok tt, s1) →
  ∃ s2, run self (mkGlobals (Some ps)) [l] s = (Ok tt, s2) ∧
        heap s2 !! l = heap s1 !! l.
Proof.
  intros Hnd Hl Hrun. apply run_heap_complete in Hrun.
  apply list_elem_of_split in Hl as (t1 & t2 & ->).
  apply NoDup_app in Hnd as (_ & Hdis & [Hnin2 _]%NoDup_cons).
  assert (l ∉ t1) as Hnin1.
  { intros Hin. apply (Hdis l Hin). by left. }
  rewrite run_heap_app in Hrun.
  destruct (run_heap ps t1 (heap s)) as [ha|] eqn:Ha; [|done].
  rewrite run_heap_cons in Hrun.
  destruct (inner_heap ps l ha) as [hb|] eqn:Hb; [|done].
  pose proof (run_heap_other ps t1 _ _ l Hnin1 Ha) as Hla.
  pose proof (run_heap_other ps t2 _ _ l Hnin2 Hrun) as Hlb.
  destruct (inner_heap_local ps l (heap s) ha hb (eq_sym Hla) Hb)
    as (hb' & Hin & Hlook).
  destruct (run_heap_sound self ps [l] s hb') as (s2 & Hrun2 & Hheap2).
  { by rewrite run_heap_cons, Hin. }
  exists s2. split; [done|]. by rewrite Hheap2, Hlook, Hlb.
Qed.

(** X6. With deterministic collaborators, the order of the records does
    not matter for the result: if the run over a sequence completes, the run
    over any rearrangement of it completes too and leaves the same records
    (only the order of the calls differs). *)
Theorem run_order_irrelevant self ps texts texts' s s1 :
  texts ≡ₚ texts' →
  run self (mkGlobals (Some ps)) texts s = (Ok tt, s1) →
  ∃ s1', run self (mkGlobals (Some ps)) texts' s = (Ok tt, s1') ∧
         heap s1' = heap s1.
Proof.
  intros Hperm Hrun. apply run_heap_complete in Hrun.
  apply run_heap_sound. by eapply run_heap_permutation.
Qed.

(** X7. With [processors] bound and every reference of the sequence
    valid, [run] has no failure of its own: whatever it raises was raised
    by one of the two collaborators on the text of a record of the
    sequence. *)
Theorem run_raises_only_collaborator_errors self ps texts s e s' :
  (∀ l, l ∈ texts → l < length (heap s)) →
  run self (mkGlobals (Some ps)) texts s = (Raise e, s') →
  ∃ l r, l ∈ texts ∧ heap s !! l = Some r ∧
         (detect_langs (text r) = Raise e ∨ polarity (text r) = Raise e).
Proof.
  intros Hvalid Hrun. apply (run_heap_raise ps); [done|].
  pose proof (run_heap_spec self ps texts s) as H.
  destruct (run_heap ps texts (heap s)) as [h'|e'].
  - destruct H as (s2 & Hs2 & _). congruence.
  - destruct H as (s2 & Hs2). congruence.
Qed.

(** ** The processors, beyond one call *)




Lemma lookup_field_preserved {A} (f : TextObject → A) (h h' : list TextObject) l :
  length h' = length h →
  (∀ r, h !! l = Some r → ∃ r', h' !! l = Some r' ∧ f r' = f r) →
  f <$> h' !! l = f <$> h !! l.
Proof.
  intros Hlen H. destruct (h !! l) as [r|] eqn:Hl.
  - destruct (H r eq_refl) as (r' & -> & Hf). simpl. by rewrite Hf.
  - apply lookup_ge_None in Hl. rewrite <-Hlen in Hl.
    apply lookup_ge_None in Hl. by rewrite Hl.
Qed.

Lemma step_language_detector_sentiment r r' :
  step LanguageDetector r = Ok r' → sentiment r' = sentiment r.
Proof.
  simpl. destruct (detect_langs (text r)); [|done].
  destruct (head _); by intros [= <-].
Qed.

Lemma step_sentiment_detector_language r r' :
  step SentimentDetector r = Ok r' → language r' = language r.
Proof.
  simpl. destruct (decide _); [|by intros [= <-]].
  destruct (polarity (text r)); [|done]. by intros [= <-].
Qed.

(** A record on which the language detector has nothing left to do keeps
    its language through any further processing, and its sentiment too
    when that language is not English. *)
Lemma steps_language_settled ps r r1 :
  step LanguageDetector r = Ok r →
  steps ps r = Ok r1 →
  step LanguageDetector r1 = Ok r1 ∧ language r1 = language r ∧
  (language r ≠ Some "en" → sentiment r1 = sentiment r).
Proof.
  revert r. induction ps as [|p ps IH]; intros r HL; [by intros [= <-]|].
  rewrite steps_cons. destruct p.
  - rewrite HL. by apply IH.
  - destruct (step SentimentDetector r) as [r'|] eqn:HS; [|done]. intros Hsteps.
    pose proof (step_sentiment_detector_language _ _ HS) as Hlang.
    destruct (IH r') as (H1 & H2 & H3); [|done|].
    { by eapply step_sentiment_keeps_language_settled. }
    split; [done|]. split; [congruence|]. intros Hen.
    rewrite H3 by congruence. revert HS. simpl.
    rewrite decide_False by done. by intros [= <-].
Qed.

Lemma steps_with_language_detector ps r r1 :
  LanguageDetector ∈ ps → steps ps r = Ok r1 →
  step LanguageDetector r1 = Ok r1.
Proof.
  revert r. induction ps as [|p ps IH]; intros r Hin.
  { by apply elem_of_nil in Hin. }
  rewrite steps_cons. destruct (step p r) as [r'|] eqn:Hst; [|done].
  intros Hsteps. destruct p.
  - apply (steps_language_settled ps r'); [|done].
    by eapply step_language_detector_settles.
  - apply (IH r'); [|done]. by apply elem_of_cons in Hin as [|].
Qed.

(** After a completed run, the record at each position of the sequence is
    the outcome of a full pass of the processors. *)
Lemma run_heap_last_pass p ps texts (h h1 : list TextObject) l :
  run_heap (p :: ps) texts h = Ok h1 →
  l ∈ texts →
  ∃ r r1, steps (p :: ps) r = Ok r1 ∧ h1 !! l = Some r1.
Proof.
  revert h. induction texts as [|l0 texts IH]; intros h Hrun Hl.
  { by apply elem_of_nil in Hl. }
  rewrite run_heap_cons in Hrun.
  destruct (inner_heap (p :: ps) l0 h) as [h'|] eqn:Hin; [|done].
  destruct (decide (l ∈ texts)) as [Hlt|Hnin]; [by eapply IH|].
  apply elem_of_cons in Hl as [->|Hl]; [|done].
  rewrite inner_heap_cons in Hin.
  destruct (h !! l0) as [r|] eqn:Hr; [|done].
  destruct (steps (p :: ps) r) as [r1|] eqn:Hst; [|done]. injection Hin as <-.
  exists r, r1. split; [done|].
  rewrite (run_heap_other _ _ _ _ _ Hnin Hrun).
  apply list_lookup_insert_eq. by eapply lookup_lt_Some.
Qed.

(** A relation between the original and the current record that every
    completed pass keeps is kept by a completed run, at every location. *)
Lemma run_heap_pass_inv (J : TextObject → TextObject → Prop) p ps texts
    (h0 h h1 : list TextObject) :
  (∀ r0 r r1, J r0 r → steps (p :: ps) r = Ok r1 → J r0 r1) →
  (∀ l r0, h0 !! l = Some r0 → ∃ r, h !! l = Some r ∧ J r0 r) →
  run_heap (p :: ps) texts h = Ok h1 →
  ∀ l r0, h0 !! l = Some r0 → ∃ r1, h1 !! l = Some r1 ∧ J r0 r1.
Proof.
  intros Hpass. revert h. induction texts as [|l0 texts IH]; intros h Hh.
  { by intros [= <-]. }
  rewrite run_heap_cons.
  destruct (inner_heap (p :: ps) l0 h) as [h'|] eqn:Hin; [|done].
  apply IH. intros l r0 Hl. destruct (Hh l r0 Hl) as (r & Hr & HJ).
  rewrite inner_heap_cons in Hin.
  destruct (h !! l0) as [rl|] eqn:Hrl; [|done].
  destruct (steps (p :: ps) rl) as [rl1|] eqn:Hst; [|done]. injection Hin as <-.
  destruct (decide (l = l0)) as [->|Hne].
  - rewrite list_lookup_insert_eq by (by eapply lookup_lt_Some).
    exists rl1. split; [done|]. assert (r = rl) as -> by congruence. eauto.
  - rewrite list_lookup_insert_ne by done. eauto.
Qed.


(** X9. With deterministic collaborators, each processor is idempotent on
    a record: if a [process] call returns, calling the same processor on the
    same record again returns too and changes no record. *)
Theorem process_twice_same_as_once p l s s1 :
  process p l s = (Ok tt, s1) →
  ∃ s2, process p l s1 = (Ok tt, s2) ∧ heap s2 = heap s1.
Proof.
  intros Hrun. destruct (heap s !! l) as [r|] eqn:Hl.
  2:{ by rewrite process_dangling in Hrun. }
  rewrite (process_unfold _ _ p l s r Hl) in Hrun.
  destruct (step p r) as [r'|] eqn:Hst; [|done]. injection Hrun as <-.
  set (s1 := {| heap := <[l:=r']> (heap s); log := log s ++ calls p r |}).
  assert (heap s1 !! l = Some r') as Hl1.
  { simpl. apply list_lookup_insert_eq. by eapply lookup_lt_Some. }
  assert (step p r' = Ok r') as Hfix.
  { destruct p; [by eapply step_language_detector_settles
                |by eapply step_sentiment_detector_settles]. }
  rewrite (process_unfold _ _ p l s1 r' Hl1), Hfix. eexists. split; [done|].
  cbn [heap]. by rewrite list_insert_id.
Qed.

(** X10. The language detector never touches [sentiment] and the
    sentiment detector never touches [language], of any record, whether the
    call returns or raises. *)
Theorem process_field_frames l s l' :
  sentiment <$> heap (process LanguageDetector l s).2 !! l'
    = sentiment <$> heap s !! l' ∧
  language <$> heap (process SentimentDetector l s).2 !! l'
    = language <$> heap s !! l'.
Proof.
  split; (apply lookup_field_preserved; [apply process_heap_length|]); intros r Hr.
  - apply (process_preserves _ _ (λ r r', sentiment r' = sentiment r));
      [done|apply step_language_detector_sentiment|done].
  - apply (process_preserves _ _ (λ r r', language r' = language r));
      [done|apply step_sentiment_detector_language|done].
Qed.

(** ** What a run writes *)

(** X11. Whatever [run] iterates and whether it completes or raises, the
    sentiment of a record afterwards is either the one it had before or the
    score the sentiment collaborator returns for that record's text. *)
Theorem run_sentiment_provenance self g texts s l r :
  heap s !! l = Some r →
  ∃ r', heap (run self g texts s).2 !! l = Some r' ∧
        (sentiment r' = sentiment r ∨
         ∃ score, polarity (text r) = Ok score ∧ sentiment r' = Some score).
Proof.
  intros Hl.
  destruct (run_preserves detect_langs polarity (λ r r', text r' = text r ∧
    (sentiment r' = sentiment r ∨
     ∃ score, polarity (text r) = Ok score ∧ sentiment r' = Some score))
    self g texts s) with (l' := l) (r0 := r) as (r' & Hr' & _ & H); [| | |done|eauto].
  - intros r0. split; [done|by left].
  - intros r1 r2 r3 [Ht12 H12] [Ht23 H23]. split; [congruence|].
    destruct H23 as [H23|(q & Hq & H23)].
    + destruct H12 as [H12|(q & Hq & H12)]; [left; congruence|right].
      exists q. split; [done|congruence].
    + right. exists q. split; [congruence|done].
  - intros p r1 r2 Hst. split; [by eapply step_text|]. destruct p.
    + left. by apply step_language_detector_sentiment.
    + revert Hst. simpl. destruct (decide _); [|by intros [= <-]; left].
      destruct (polarity (text r1)) as [q|]; [|done]. intros [= <-]. eauto.
Qed.

(** X12. Whatever [run] iterates and whether it completes or raises, the
    language of a record afterwards is either the one it had before or the
    code of a candidate, of maximal confidence, that the language
    collaborator returns for that record's text. *)
Theorem run_language_provenance self g texts s l r :
  heap s !! l = Some r →
  ∃ r', heap (run self g texts s).2 !! l = Some r' ∧
        (language r' = language r ∨
         ∃ cands best, detect_langs (text r) = Ok cands ∧ best ∈ cands ∧
           (∀ c, c ∈ cands → (prob c <= prob best)%Q) ∧
           language r' = Some (lang best)).
Proof.
  intros Hl.
  destruct (run_preserves detect_langs polarity (λ r r', text r' = text r ∧
    (language r' = language r ∨
     ∃ cands best, detect_langs (text r) = Ok cands ∧ best ∈ cands ∧
       (∀ c, c ∈ cands → (prob c <= prob best)%Q) ∧
       language r' = Some (lang best)))
    self g texts s) with (l' := l) (r0 := r) as (r' & Hr' & _ & H); [| | |done|eauto].
  - intros r0. split; [done|by left].
  - intros r1 r2 r3 [Ht12 H12] [Ht23 H23]. split; [congruence|].
    destruct H23 as [H23|(cs & b & Hd & Hb & Hmax & H23)].
    + destruct H12 as [H12|(cs & b & Hd & Hb & Hmax & H12)]; [left; congruence|].
      right. exists cs, b. repeat split; [done..|congruence].
    + right. exists cs, b. repeat split; [congruence|done..].
  - intros p r1 r2 Hst. split; [by eapply step_text|]. destruct p.
    + revert Hst. simpl.
      destruct (detect_langs (text r1)) as [cands|] eqn:Hd; [|done].
      destruct (head (sorted prob true cands)) as [b|] eqn:Hb;
        intros [= <-]; [|by left].
      apply head_sorted_max in Hb as [Hb Hmax]. right. by exists cands, b.
    + left. by apply step_sentiment_detector_language.
Qed.

(** X13. With deterministic collaborators: after a completed run whose
    processor list contains a sentiment detector and does not put all of
    them before all language detectors, every record of the sequence whose
    language is ["en"] carries the score the sentiment collaborator returns
    for its text. *)
Theorem run_scores_every_english_record self ps texts s s1 l :
  sentiments_first ps = false →
  SentimentDetector ∈ ps →
  run self (mkGlobals (Some ps)) texts s = (Ok tt, s1) →
  l ∈ texts →
  ∃ r1, heap s1 !! l = Some r1 ∧
        (language r1 = Some "en" →
         ∃ score, polarity (text r1) = Ok score ∧ sentiment r1 = Some score).
Proof.
  intros Hsf HSD Hrun Hl. destruct ps as [|p ps]; [by apply elem_of_nil in HSD|].
  destruct (run_settles _ _ self p ps texts s s1 Hsf Hrun l Hl)
    as (r1 & Hr1 & Hfix).
  exists r1. split; [done|]. intros Hen.
  pose proof (steps_settle _ _ _ _ _ Hsf Hfix SentimentDetector HSD) as HS.
  revert HS. simpl. rewrite decide_True by done.
  destruct (polarity (text r1)) as [q|]; [|done]. intros [= HS].
  exists q. split; [done|]. by rewrite <-HS at 1.
Qed.

(** X14. With deterministic collaborators: when the processor list starts
    with a language detector, a completed run leaves the sentiment of every
    record whose final language is not ["en"] as it was before the run. *)
Theorem run_leaves_non_english_unscored self ps texts s s1 l r :
  run self (mkGlobals (Some (LanguageDetector :: ps))) texts s = (Ok tt, s1) →
  heap s !! l = Some r →
  ∃ r1, heap s1 !! l = Some r1 ∧
        (language r1 ≠ Some "en" → sentiment r1 = sentiment r).
Proof.
  intros Hrun Hl. apply run_heap_complete in Hrun.
  destruct (run_heap_pass_inv (λ r0 r1, r1 = r0 ∨
      (step LanguageDetector r1 = Ok r1 ∧
       (language r1 ≠ Some "en" → sentiment r1 = sentiment r0)))
    LanguageDetector ps texts (heap s) (heap s) (heap s1))
    with (l := l) (r0 := r) as (r1 & Hr1 & HJ); [|by eauto|done|done|].
  - intros r0 ra rb HJ. rewrite steps_cons.
    destruct HJ as [->|[Hfix Hsent]].
    + destruct (step LanguageDetector r0) as [ra'|] eqn:Hst; [|done].
      intros Hsteps. right.
      pose proof (step_language_detector_settles _ _ _ _ Hst) as Hfix.
      destruct (steps_language_settled ps ra' rb Hfix Hsteps) as (H1 & H2 & H3).
      split; [done|]. intros Hen. rewrite H3 by congruence.
      by apply step_language_detector_sentiment.
    + rewrite Hfix. intros Hsteps. right.
      destruct (steps_language_settled ps ra rb Hfix Hsteps) as (H1 & H2 & H3).
      split; [done|]. intros Hen. rewrite H3 by congruence.
      apply Hsent. congruence.
  - exists r1. split; [done|]. destruct HJ as [->|[_ H]]; [done|exact H].
Qed.

(** X15. With a deterministic language collaborator: after a completed
    run whose processor list contains a language detector, the language of
    every record of the sequence is determined by its text: the code of the
    earliest best candidate the collaborator returns for it, or, when the
    collaborator returns none, the language the record had before the
    run. *)
Theorem run_language_determined self ps texts s s1 l r :
  LanguageDetector ∈ ps →
  run self (mkGlobals (Some ps)) texts s = (Ok tt, s1) →
  l ∈ texts →
  heap s !! l = Some r →
  ∃ r1 cands, heap s1 !! l = Some r1 ∧ detect_langs (text r) = Ok cands ∧
    language r1 = match head (sorted prob true cands) with
                  | Some best => Some (lang best)
                  | None => language r
                  end.
Proof.
  intros HLD Hrun Hl Hr.
  destruct (run_preserves detect_langs polarity (λ r r', text r' = text r ∧
    (detect_langs (text r) = Ok [] → language r' = language r))
    self (mkGlobals (Some ps)) texts s) with (l' := l) (r0 := r)
    as (r1 & Hr1 & Htext & Hkeep); [| | |done|].
  - done.
  - intros ra rb rc [Hab Hab'] [Hbc Hbc']. split; [congruence|].
    intros Hd. rewrite Hbc', Hab'; [done..|congruence].
  - intros p ra rb Hst. split; [by eapply step_text|]. intros Hd. destruct p.
    + revert Hst. simpl. rewrite Hd. by intros [= <-].
    + by apply step_sentiment_detector_language.
  - rewrite Hrun in Hr1. simpl in Hr1.
    apply run_heap_complete in Hrun. destruct ps as [|p ps].
    { by apply elem_of_nil in HLD. }
    destruct (run_heap_last_pass p ps texts (heap s) (heap s1) l Hrun Hl)
      as (ra & rb & Hsteps & Hrb).
    assert (rb = r1) as -> by congruence.
    pose proof (steps_with_language_detector _ _ _ HLD Hsteps) as Hfix.
    revert Hfix. simpl. rewrite Htext.
    destruct (detect_langs (text r)) as [cands|] eqn:Hd; [|done].
    exists r1, cands. split; [done|]. split; [done|].
    destruct (head (sorted prob true cands)) as [b|] eqn:Hb.
    + injection Hfix as Hfix. by rewrite <-Hfix at 1.
    + apply Hkeep. apply head_None, sorted_nil_inv in Hb. by rewrite Hb.
Qed.

(** ** How often the collaborators are called *)

Lemma count_events_app f evs1 evs2 :
  count_events f (evs1 ++ evs2) = count_events f evs1 + count_events f evs2.
Proof. unfold count_events. by rewrite List.filter_app, length_app. Qed.

Lemma inner_calls ps l s s1 :
  inner ps l s = (Ok tt, s1) →
  count_events is_detect_call (log s1)
    = count_events is_detect_call (log s)
      + count_processors is_language_detector ps ∧
  (count_events is_polarity_call (log s1)
    ≤ count_events is_polarity_call (log s)
      + count_processors (λ p, negb (is_language_detector p)) ps)%nat.
Proof.
  revert s. induction ps as [|p ps IH]; intros s.
  { intros [= <-]. unfold count_processors. simpl. lia. }
  rewrite inner_cons.
  set (s' := {| heap := heap s; log := log s ++ [EvProcess p l] |}).
  destruct (heap s' !! l) as [r|] eqn:Hl.
  2:{ by rewrite process_dangling. }
  rewrite (process_unfold _ _ p l s' r Hl).
  destruct (step p r) as [r'|]; [|done]. intros Hin.
  destruct (IH _ Hin) as [Hd Hp]. cbn [log] in Hd, Hp.
  rewrite !count_events_app in Hd, Hp. unfold s' in Hd, Hp. cbn [log] in Hd, Hp.
  rewrite !count_events_app in Hd, Hp. unfold count_processors in *.
  destruct p; simpl in *.
  - unfold count_events in *. simpl in *. lia.
  - destruct (decide _); unfold count_events in *; simpl in *; lia.
Qed.

(** X16. In a completed run every language detector of the processor list
    calls the language collaborator exactly once per entry of the sequence,
    and every sentiment detector calls the sentiment collaborator at most
    once per entry. *)
Theorem run_collaborator_calls self ps texts s s1 :
  run self (mkGlobals (Some ps)) texts s = (Ok tt, s1) →
  count_events is_detect_call (log s1)
    = count_events is_detect_call (log s)
      + length texts * count_processors is_language_detector ps ∧
  (count_events is_polarity_call (log s1)
    ≤ count_events is_polarity_call (log s)
      + length texts * count_processors (λ p, negb (is_language_detector p)) ps)%nat.
Proof.
  revert s. induction texts as [|l texts IH]; intros s.
  { intros [= <-]. simpl. lia. }
  rewrite run_cons. destruct (inner ps l s) as [[[]|e] s'] eqn:Hin; [|done].
  intros Hrun. destruct (inner_calls ps l s s' Hin) as [Hd Hp].
  destruct (IH s' Hrun) as [Hd' Hp']. simpl. lia.
Qed.

End Further.

(** * The further properties on concrete stores *)

Lemma run_frame_witness :
  heap (run sample_detect_langs sample_polarity (mkPipeline [])
          (mkGlobals (Some [LanguageDetector; SentimentDetector]))
          [0]%nat notebook_state).2 !! 1%nat
    = heap notebook_state !! 1%nat.
Proof.
  apply (run_frame sample_detect_langs sample_polarity (mkPipeline [])
    (mkGlobals (Some [LanguageDetector; SentimentDetector])) [0]%nat
    notebook_state 1%nat).
  apply (bool_decide_unpack _). vm_compute. exact I.
Defined.

Lemma run_unbound_global_witness :
  run sample_detect_langs sample_polarity
      (mkPipeline [LanguageDetector; SentimentDetector]) (mkGlobals None)
      [0; 1]%nat notebook_state
    = (Raise (NameError "processors"), notebook_state).
Proof.
  apply (proj1 (run_unbound_global sample_detect_langs sample_polarity
    (mkPipeline [LanguageDetector; SentimentDetector]) [0; 1]%nat
    notebook_state)).
  discriminate.
Defined.

Lemma run_record_independent_witness :
  let ps := [LanguageDetector; SentimentDetector] in
  let s1 := (run sample_detect_langs sample_polarity (mkPipeline ps)
               (mkGlobals (Some ps)) [0; 1]%nat notebook_state).2 in
  ∃ s2, run sample_detect_langs sample_polarity (mkPipeline ps)
            (mkGlobals (Some ps)) [1]%nat notebook_state = (Ok tt, s2) ∧
        heap s2 !! 1%nat = heap s1 !! 1%nat.
Proof.
  cbv zeta.
  apply (run_record_independent sample_detect_langs sample_polarity
    (mkPipeline [LanguageDetector; SentimentDetector])
    [LanguageDetector; SentimentDetector] [0; 1]%nat notebook_state).
  - apply (bool_decide_unpack _). vm_compute. exact I.
  - apply (bool_decide_unpack _). vm_compute. exact I.
  - vm_compute. reflexivity.
Defined.

Lemma run_order_irrelevant_witness :
  let ps := [LanguageDetector; SentimentDetector] in
  let s1 := (run sample_detect_langs sample_polarity (mkPipeline ps)
               (mkGlobals (Some ps)) [0; 1]%nat notebook_state).2 in
  ∃ s1', run sample_detect_langs sample_polarity (mkPipeline ps)
             (mkGlobals (Some ps)) [1; 0]%nat notebook_state = (Ok tt, s1') ∧
         heap s1' = heap s1.
Proof.
  cbv zeta.
  apply (run_order_irrelevant sample_detect_langs sample_polarity
    (mkPipeline [LanguageDetector; SentimentDetector])
    [LanguageDetector; SentimentDetector] [0; 1]%nat [1; 0]%nat notebook_state).
  - apply perm_swap.
  - vm_compute. reflexivity.
Defined.

Lemma run_raises_only_collaborator_errors_witness :
  ∃ l r, l ∈ [1; 0]%nat ∧
    [TextObject_of_text ""; TextObject_of_text hello_text] !! l = Some r ∧
    (sample_detect_langs (text r) = Raise (LibraryError "No features in text.") ∨
     sample_polarity (text r) = Raise (LibraryError "No features in text.")).
Proof.
  apply (run_raises_only_collaborator_errors sample_detect_langs
    sample_polarity (mkPipeline []) [LanguageDetector; SentimentDetector]
    [1; 0]%nat
    (mkState [TextObject_of_text ""; TextObject_of_text hello_text] [])
    (LibraryError "No features in text.")
    (run sample_detect_langs sample_polarity (mkPipeline [])
       (mkGlobals (Some [LanguageDetector; SentimentDetector])) [1; 0]%nat
       (mkState [TextObject_of_text ""; TextObject_of_text hello_text] [])).2).
  - intros l Hl. apply elem_of_cons in Hl as [->|Hl]; [simpl; lia|].
    apply list_elem_of_singleton in Hl as ->. simpl. lia.
  - vm_compute. reflexivity.
Defined.


Lemma process_twice_same_as_once_witness :
  let s1 := (process sample_detect_langs sample_polarity LanguageDetector 0
               notebook_state).2 in
  ∃ s2, process sample_detect_langs sample_polarity LanguageDetector 0 s1
          = (Ok tt, s2) ∧ heap s2 = heap s1.
Proof.
  cbv zeta.
  apply (process_twice_same_as_once sample_detect_langs sample_polarity
    LanguageDetector 0%nat notebook_state).
  vm_compute. reflexivity.
Defined.

Lemma run_sentiment_provenance_witness :
  let ps := [LanguageDetector; SentimentDetector] in
  ∃ r', heap (run sample_detect_langs sample_polarity (mkPipeline ps)
                (mkGlobals (Some ps)) [0; 1]%nat notebook_state).2 !! 0%nat
          = Some r' ∧
        (sentiment r' = None ∨
         ∃ score, sample_polarity hello_text = Ok score ∧
                  sentiment r' = Some score).
Proof.
  cbv zeta.
  apply (run_sentiment_provenance sample_detect_langs sample_polarity
    (mkPipeline [LanguageDetector; SentimentDetector])
    (mkGlobals (Some [LanguageDetector; SentimentDetector])) [0; 1]%nat
    notebook_state 0%nat (TextObject_of_text hello_text)).
  reflexivity.
Defined.

Lemma run_language_provenance_witness :
  let ps := [LanguageDetector; SentimentDetector] in
  ∃ r', heap (run sample_detect_langs sample_polarity (mkPipeline ps)
                (mkGlobals (Some ps)) [0; 1]%nat notebook_state).2 !! 1%nat
          = Some r' ∧
        (language r' = None ∨
         ∃ cands best, sample_detect_langs german_text = Ok cands ∧
           best ∈ cands ∧ (∀ c, c ∈ cands → (prob c <= prob best)%Q) ∧
           language r' = Some (lang best)).
Proof.
  cbv zeta.
  apply (run_language_provenance sample_detect_langs sample_polarity
    (mkPipeline [LanguageDetector; SentimentDetector])
    (mkGlobals (Some [LanguageDetector; SentimentDetector])) [0; 1]%nat
    notebook_state 1%nat (TextObject_of_text german_text)).
  reflexivity.
Defined.

Lemma run_scores_every_english_record_witness :
  let ps := [LanguageDetector; SentimentDetector] in
  let s1 := (run sample_detect_langs sample_polarity (mkPipeline ps)
               (mkGlobals (Some ps)) [0; 1]%nat notebook_state).2 in
  ∃ r1, heap s1 !! 0%nat = Some r1 ∧
        (language r1 = Some "en" →
         ∃ score, sample_polarity (text r1) = Ok score ∧
                  sentiment r1 = Some score).
Proof.
  cbv zeta.
  apply (run_scores_every_english_record sample_detect_langs sample_polarity
    (mkPipeline [LanguageDetector; SentimentDetector])
    [LanguageDetector; SentimentDetector] [0; 1]%nat notebook_state).
  - reflexivity.
  - apply (bool_decide_unpack _). vm_compute. exact I.
  - vm_compute. reflexivity.
  - apply (bool_decide_unpack _). vm_compute. exact I.
Defined.

Lemma run_leaves_non_english_unscored_witness :
  let s1 := (run sample_detect_langs sample_polarity (mkPipeline [])
               (mkGlobals (Some [LanguageDetector; SentimentDetector]))
               [0; 1]%nat notebook_state).2 in
  ∃ r1, heap s1 !! 1%nat = Some r1 ∧
        (language r1 ≠ Some "en" → sentiment r1 = None).
Proof.
  cbv zeta.
  apply (run_leaves_non_english_unscored sample_detect_langs sample_polarity
    (mkPipeline []) [SentimentDetector] [0; 1]%nat notebook_state _ 1%nat
    (TextObject_of_text german_text)).
  - vm_compute. reflexivity.
  - reflexivity.
Defined.

Lemma run_language_determined_witness :
  let ps := [LanguageDetector; SentimentDetector] in
  let s1 := (run sample_detect_langs sample_polarity (mkPipeline ps)
               (mkGlobals (Some ps)) [0; 1]%nat notebook_state).2 in
  ∃ r1 cands, heap s1 !! 1%nat = Some r1 ∧
    sample_detect_langs german_text = Ok cands ∧
    language r1 = match head (sorted prob true cands) with
                  | Some best => Some (lang best)
                  | None => None
                  end.
Proof.
  cbv zeta.
  apply (run_language_determined sample_detect_langs sample_polarity
    (mkPipeline [LanguageDetector; SentimentDetector])
    [LanguageDetector; SentimentDetector] [0; 1]%nat notebook_state _ 1%nat
    (TextObject_of_text german_text)).
  - apply (bool_decide_unpack _). vm_compute. exact I.
  - vm_compute. reflexivity.
  - apply (bool_decide_unpack _). vm_compute. exact I.
  - reflexivity.
Defined.

Lemma run_collaborator_calls_witness :
  let ps := [LanguageDetector; SentimentDetector] in
  let s1 := (run sample_detect_langs sample_polarity (mkPipeline ps)
               (mkGlobals (Some ps)) [0; 1]%nat notebook_state).2 in
  count_events is_detect_call (log s1)
    = count_events is_detect_call [] + 2 * 1 ∧
  (count_events is_polarity_call (log s1)
    ≤ count_events is_polarity_call [] + 2 * 1)%nat.
Proof.
  cbv zeta.
  apply (run_collaborator_calls sample_detect_langs sample_polarity
    (mkPipeline [LanguageDetector; SentimentDetector])
    [LanguageDetector; SentimentDetector] [0; 1]%nat notebook_state).
  vm_compute. reflexivity.
Defined.
